(** * stickers-l2t-bot: the batch scheduler, the retry loops, the session
      flag and the sticker pipeline of [functions/src]

    The development embeds [utils.ts] and the document handler of
    [index.ts].  Promises, timers and remote calls are modelled by explicit
    state passing: every callback of the event loop runs to completion, so
    one callback is one step of a transition function, and the environment
    chooses the order in which timers fire and promises settle. *)

From Stdlib Require Import ZArith Lia.
From stdpp Require Import base list gmap strings.

(** ** Thrown values *)

(** [class BotError extends Error] of [utils.ts], and everything else that
    can be thrown (an axios fault, a Telegram fault, a [TypeError]). *)
Inductive JsError :=
  | BotError (message : string)
  | OtherError (what : string).

(** How a promise settles. *)
Inductive Settlement :=
  | Fulfilled
  | Rejected (err : JsError).

(** ** [concurrentDo] (utils.ts, lines 77-134) *)

Module Scheduler.

(** [Timer] is the life of a handle returned by [setInterval] or
    [setTimeout]: not created yet, live, or cleared. *)
Inductive Timer := NotStarted | Live | Cleared.

(** [clearInterval(timer)], and [if (timeoutTimer) clearTimeout(timeoutTimer)]:
    a handle that was never created stays as it is. *)
Definition clear (t : Timer) : Timer :=
  match t with NotStarted => NotStarted | _ => Cleared end.

(** What the event loop can deliver to one batch: the interval callback,
    the settlement of the promise stored in [queue[i]], the timeout
    callback. *)
Inductive Event := Tick | Settle (i : nat) | Timeout.

Section Batch.
Context {Task : Type}.

(** A task is an opaque closure; [result t] is how the promise it returns
    settles once the environment lets it settle. *)
Variable result : Task → Settlement.

(** [queue[i]]: [undefined], the promise of a running task, or a promise
    whose task rejected ([queue[i]] is reset only by the [then] branch, so
    the entry stays truthy). *)
Inductive Slot := Empty | Pending (t : Task) | Stale.

(** The closure of one [concurrentDo] call.  [queue] is a sparse JS array
    of which only the indices below [pLimit] are read or written, and a
    missing entry reads as [undefined]: it is a list of [pLimit] slots.
    [started] and [finished] are ghost logs of the tasks invoked and of
    the tasks whose promise settled, oldest first. *)
Record State := mkState {
  queue : list Slot;
  taskToBeExcuted : list Task;
  pLimit : nat;
  period : Z;
  timer : Timer;
  timeoutTimer : Timer;
  settled : option Settlement;
  started : list Task;
  finished : list Task
}.

(** [Array.prototype.pop]: removes and returns the last element. *)
Definition pop (l : list Task) : option (Task * list Task) :=
  match last l with
  | Some t => Some (t, take (length l - 1) l)
  | None => None
  end.

(** [!queue[i]] *)
Definition falsy (o : option Slot) : bool :=
  match o with
  | None | Some Empty => true
  | Some (Pending _) | Some Stale => false
  end.

(** One iteration of the loop of [fillQueue] (lines 115-130). *)
Definition fill_slot (s : State) (i : nat) : State :=
  if falsy (queue s !! i) then
    match pop (taskToBeExcuted s) with
    | Some (t, rest) =>
        mkState (<[i := Pending t]> (queue s)) rest (pLimit s) (period s)
                (timer s) (timeoutTimer s) (settled s)
                (started s ++ [t]) (finished s)
    | None => s
    end
  else s.

(** [for (let i = 0; i < pLimit; i++) ...] *)
Definition fillQueue (s : State) : State :=
  fold_left fill_slot (seq 0 (pLimit s)) s.

(** [isQueueEmpty] (lines 103-106) *)
Definition isQueueEmpty (s : State) : bool :=
  forallb (λ i, falsy (queue s !! i)) (seq 0 (pLimit s)).

(** [cleanup] (lines 108-111) *)
Definition cleanup (s : State) : State :=
  mkState (queue s) (taskToBeExcuted s) (pLimit s) (period s)
          (clear (timer s)) (clear (timeoutTimer s)) (settled s)
          (started s) (finished s).

(** [resolve()] and [reject(err)]: a promise settles once, later calls
    are ignored. *)
Definition settle (r : Settlement) (s : State) : State :=
  match settled s with
  | Some _ => s
  | None =>
      mkState (queue s) (taskToBeExcuted s) (pLimit s) (period s)
              (timer s) (timeoutTimer s) (Some r)
              (started s) (finished s)
  end.

Definition timeoutError : JsError := BotError "操作超时了".

(** [if (timeout)]: [undefined] and [0] are falsy. *)
Definition truthy_timeout (timeout : option Z) : bool :=
  match timeout with Some ms => negb (ms =? 0)%Z | None => false end.

(** The body of the executor passed to [new Promise] (lines 84-101): it
    runs synchronously inside the call. *)
Definition concurrentDo (tasks : list Task) (limit : nat) (interval : Z)
    (timeout : option Z) : State :=
  let s0 := mkState (replicate limit Empty) tasks limit interval
                    NotStarted NotStarted None [] [] in
  match tasks with
  | [] => settle Fulfilled s0
  | _ :: _ =>
      let s1 := fillQueue s0 in
      mkState (queue s1) (taskToBeExcuted s1) (pLimit s1) (period s1)
              Live (if truthy_timeout timeout then Live else NotStarted)
              (settled s1) (started s1) (finished s1)
  end.

(** The [then] callback of the task in slot [i] (lines 118-124). *)
Definition on_fulfilled (i : nat) (t : Task) (s : State) : State :=
  let s1 := mkState (<[i := Empty]> (queue s)) (taskToBeExcuted s)
                    (pLimit s) (period s) (timer s) (timeoutTimer s)
                    (settled s) (started s) (finished s ++ [t]) in
  if bool_decide (length (taskToBeExcuted s1) = 0) && isQueueEmpty s1
  then settle Fulfilled (cleanup s1)
  else s1.

(** The [catch] callback of the task in slot [i] (lines 125-128). *)
Definition on_rejected (i : nat) (t : Task) (err : JsError) (s : State)
    : State :=
  let s1 := mkState (<[i := Stale]> (queue s)) (taskToBeExcuted s)
                    (pLimit s) (period s) (timer s) (timeoutTimer s)
                    (settled s) (started s) (finished s ++ [t]) in
  settle (Rejected err) (cleanup s1).

(** The timeout callback (lines 98-101): it clears its own handle and
    rejects; it does not call [cleanup]. *)
Definition on_timeout (s : State) : State :=
  settle (Rejected timeoutError)
    (mkState (queue s) (taskToBeExcuted s) (pLimit s) (period s)
             (timer s) (clear (timeoutTimer s)) (settled s)
             (started s) (finished s)).

(** One callback of the event loop.  An event that cannot happen in the
    state (a cleared timer, a slot that holds no running task) leaves it
    unchanged. *)
Definition step (s : State) (e : Event) : State :=
  match e with
  | Tick =>
      match timer s with Live => fillQueue s | _ => s end
  | Settle i =>
      match queue s !! i with
      | Some (Pending t) =>
          match result t with
          | Fulfilled => on_fulfilled i t s
          | Rejected err => on_rejected i t err s
          end
      | _ => s
      end
  | Timeout =>
      match timeoutTimer s with Live => on_timeout s | _ => s end
  end.

Definition run (s : State) (es : list Event) : State :=
  fold_left step es s.

(** The tasks outstanding: started, promise not settled yet. *)
Definition running (sl : Slot) : option Task :=
  match sl with Pending t => Some t | _ => None end.

Definition in_flight (s : State) : list Task := omap running (queue s).

Definition outstanding (s : State) : nat := length (in_flight s).


(** What every callback preserves, whatever the tasks do. *)
Record inv (tasks : list Task) (s : State) : Prop := mkInv {
  inv_len : length (queue s) = pLimit s;
  inv_order : taskToBeExcuted s ++ reverse (started s) = tasks;
  inv_flight : started s ≡ₚ finished s ++ in_flight s
}.

(** After a pass of [fillQueue] no task waits, or no slot is free. *)
Definition saturated (s : State) : Prop :=
  taskToBeExcuted s = [] ∨ ∀ j, j < pLimit s → falsy (queue s !! j) = false.



End Batch.
End Scheduler.

(** ** [typings.ts] *)

Module Typings.

(** A [Buffer] is a sequence of bytes. *)
Definition Buffer := string.

(** [interface LineSticker]: [fileId] and [image] are optional. *)
Record LineSticker := mkLineSticker {
  id : Z;
  url : string;
  emojis : string;
  fileId : option string;
  image : option Buffer
}.

End Typings.

(** ** [isLineSticker] and [isLineStickerSet] (utils.ts, lines 4-31) *)

Module Validator.

(** The value returned by [JSON.parse].  Numbers are kept as integers: the
    validator only asks for their [typeof]. *)
#[local] Unset Elimination Schemes.
Inductive Json :=
  | JNull
  | JBool (b : bool)
  | JNumber (n : Z)
  | JString (s : string)
  | JArray (items : list Json)
  | JObject (fields : list (string * Json)).
#[local] Set Elimination Schemes.

(** [obj[key]] on a parsed object: a key that occurs twice keeps its last
    value; a key that is absent, or any of the keys below on an array,
    reads as [undefined]. *)
Fixpoint field (key : string) (fields : list (string * Json)) : option Json :=
  match fields with
  | [] => None
  | (k, v) :: rest =>
      match field key rest with
      | Some v' => Some v'
      | None => if String.eqb k key then Some v else None
      end
  end.

Definition get (key : string) (obj : Json) : option Json :=
  match obj with
  | JObject fields => field key fields
  | _ => None
  end.

(** [key in obj], for the keys the validator asks for: [None] is the
    [TypeError] thrown when [obj] is not an object. *)
Definition has (key : string) (obj : Json) : option bool :=
  match obj with
  | JObject fields => Some (bool_decide (is_Some (field key fields)))
  | JArray _ => Some false
  | JNull | JBool _ | JNumber _ | JString _ => None
  end.

(** [typeof v === "number"], [typeof v === "string"], [Array.isArray(v)] *)
Definition is_number (v : option Json) : bool :=
  match v with Some (JNumber _) => true | _ => false end.

Definition is_string (v : option Json) : bool :=
  match v with Some (JString _) => true | _ => false end.

Definition isArray (v : option Json) : bool :=
  match v with Some (JArray _) => true | _ => false end.

(** [a && b] where [a] may throw: [b] is evaluated only if [a] is true. *)
Definition and_then (a b : option bool) : option bool :=
  match a with
  | None => None
  | Some false => Some false
  | Some true => b
  end.

Infix "&&?" := and_then (at level 41, right associativity).

(** [isLineSticker] (lines 4-13) *)
Definition isLineSticker (obj : Json) : option bool :=
  has "id" obj &&? Some (is_number (get "id" obj)) &&?
  has "url" obj &&? Some (is_string (get "url" obj)) &&?
  has "emojis" obj &&? Some (is_string (get "emojis" obj)).

(** [Array.prototype.every]: true on the empty array, stops at the first
    element that fails, throws if the callback throws. *)
Fixpoint every (f : Json → option bool) (items : list Json) : option bool :=
  match items with
  | [] => Some true
  | x :: rest =>
      match f x with
      | None => None
      | Some false => Some false
      | Some true => every f rest
      end
  end.

(** [obj.stickers] once [Array.isArray(obj.stickers)] holds *)
Definition stickers_of (obj : Json) : list Json :=
  match get "stickers" obj with
  | Some (JArray items) => items
  | _ => []
  end.

(** [isLineStickerSet] (lines 15-31) *)
Definition isLineStickerSet (obj : Json) : option bool :=
  has "id" obj &&? Some (is_number (get "id" obj)) &&?
  has "name" obj &&? Some (is_string (get "name" obj)) &&?
  has "author" obj &&? Some (is_string (get "author" obj)) &&?
  has "authorUrl" obj &&? Some (is_string (get "authorUrl" obj)) &&?
  has "mainImageUrl" obj &&? Some (is_string (get "mainImageUrl" obj)) &&?
  has "stickers" obj &&? Some (isArray (get "stickers" obj)) &&?
  every isLineSticker (stickers_of obj).

End Validator.

(** ** The partition by the cache of file ids (index.ts, lines 44-52) *)

Module Partition.
Import Typings.

(** [if (existingImageIds[sticker.id])]: a missing entry is [undefined],
    and the empty string is falsy too. *)
Definition truthy (v : option string) : bool :=
  match v with
  | Some fileId => negb (String.eqb fileId "")
  | None => false
  end.

(** [sticker.fileId = existingImageIds[sticker.id]] *)
Definition assign (existingImageIds : gmap Z string) (sticker : LineSticker)
    : LineSticker :=
  mkLineSticker (id sticker) (url sticker) (emojis sticker)
                (existingImageIds !! id sticker) (image sticker).

(** The state of the loop: [stickerSet.stickers] as visited so far (the
    loop assigns to the objects of the set), and the two arrays. *)
Record Split := mkSplit {
  visited : list LineSticker;
  stickersAlreadyUploaded : list LineSticker;
  stickersToBeUploaded : list LineSticker
}.

(** The callback of [stickerSet.stickers.forEach] (lines 47-52) *)
Definition classify (existingImageIds : gmap Z string) (acc : Split)
    (sticker : LineSticker) : Split :=
  if truthy (existingImageIds !! id sticker) then
    let sticker' := assign existingImageIds sticker in
    mkSplit (visited acc ++ [sticker'])
            (stickersAlreadyUploaded acc ++ [sticker'])
            (stickersToBeUploaded acc)
  else
    mkSplit (visited acc ++ [sticker])
            (stickersAlreadyUploaded acc)
            (stickersToBeUploaded acc ++ [sticker]).

Definition partitionStickers (existingImageIds : gmap Z string)
    (stickers : list LineSticker) : Split :=
  fold_left (classify existingImageIds) stickers (mkSplit [] [] []).

(** The test of the loop, as a predicate on stickers. *)
Definition cached (existingImageIds : gmap Z string) (sticker : LineSticker)
    : Prop :=
  truthy (existingImageIds !! id sticker) = true.

#[export] Instance cached_dec existingImageIds sticker :
  Decision (cached existingImageIds sticker).
Proof. unfold cached. apply _. Defined.

(** What the loop leaves in an object of the set. *)
Definition settled_sticker (existingImageIds : gmap Z string)
    (sticker : LineSticker) : LineSticker :=
  if decide (cached existingImageIds sticker)
  then assign existingImageIds sticker else sticker.

End Partition.

(** ** The retry loops of [downloadSticker], [uploadSticker] and
       [addSticker] (index.ts, lines 98-117, 140-163, 196-225) *)

Module Retry.
Import Typings.

(** One invocation of the wrapped remote call: it returns a value or
    throws. *)
Inductive Attempt (A : Type) :=
  | Ok (v : A)
  | Fault (raw : string).
Arguments Ok {A} v.
Arguments Fault {A} raw.

(** What a loop does, in order: the [k]-th invocation of the remote call
    (counted from 0), [await delay(ms)], [console.log(text)]. *)
Inductive Effect :=
  | Call (k : nat)
  | Delay (ms : Z)
  | ConsoleLog (text : string).

(** How the [while] loop is left: by [return] inside [try], or because the
    guard [times < budget] failed, with the last caught error. *)
Inductive LoopExit (A : Type) :=
  | Returned (v : A)
  | Exhausted (error : option string).
Arguments Returned {A} v.
Arguments Exhausted {A} error.

(** [while (times < budget) { try { return await op() } catch (err)
    { times++; error = err; ...catch_tail } }].  The remote call is given by
    its result at each invocation; [n] is [budget - times], the number of
    iterations the guard still admits, and [catch_tail] is what the [catch]
    block does after recording the error. *)
Fixpoint while_times {A : Type} (catch_tail : list Effect)
    (op : nat → Attempt A) (n times : nat) (error : option string)
    : list Effect * LoopExit A :=
  match n with
  | 0 => ([], Exhausted error)
  | S n' =>
      match op times with
      | Ok v => ([Call times], Returned v)
      | Fault err =>
          let '(tr, ex) :=
            while_times catch_tail op n' (S times) (Some err) in
          (Call times :: catch_tail ++ tr, ex)
      end
  end.

(** [if (error) console.log(error)] *)
Definition log_error (error : option string) : list Effect :=
  match error with Some e => [ConsoleLog e] | None => [] end.

(** [downloadSticker] (lines 98-117): 3 attempts, nothing between them. *)
Definition downloadSticker (url : string)
    (__downloadSticker : nat → Attempt Buffer)
    : list Effect * (Buffer + JsError) :=
  match while_times [] __downloadSticker 3 0 None with
  | (tr, Returned result) => (tr, inl result)
  | (tr, Exhausted error) =>
      (tr ++ log_error error ++ [ConsoleLog ("Failed: " +:+ url +:+ ".")],
       inr (BotError "下载贴纸时出错了"))
  end.

(** [uploadSticker] (lines 140-163): 3 attempts, [await delay(1000)] in the
    [catch] block; on success the file id is stored in the sticker. *)
Definition uploadSticker (sticker : LineSticker)
    (__uploadSticker : nat → Attempt string)
    : list Effect * (LineSticker + JsError) :=
  match while_times [Delay 1000] __uploadSticker 3 0 None with
  | (tr, Returned file_id) =>
      (tr, inl (mkLineSticker (id sticker) (url sticker) (emojis sticker)
                              (Some file_id) (image sticker)))
  | (tr, Exhausted error) =>
      (tr ++ log_error error, inr (BotError "上传贴纸时出错了"))
  end.

(** [addSticker] (lines 196-225): 5 attempts, [await delay(1000)] in the
    [catch] block. *)
Definition addSticker (__addSticker : nat → Attempt unit)
    : list Effect * (unit + JsError) :=
  match while_times [Delay 1000] __addSticker 5 0 None with
  | (tr, Returned _) => (tr, inl tt)
  | (tr, Exhausted error) =>
      (tr ++ log_error error, inr (BotError "把贴纸们加进贴纸包时出错了"))
  end.

(** The number of invocations of the remote call in a trace. *)
Definition is_call (e : Effect) : bool :=
  match e with Call _ => true | _ => false end.

Definition calls (tr : list Effect) : nat :=
  length (filter (λ e, is_call e = true) tr).

(** The attempts and the delays of a trace, without the logging. *)
Definition is_log (e : Effect) : bool :=
  match e with ConsoleLog _ => true | _ => false end.

Definition pacing (tr : list Effect) : list Effect :=
  filter (λ e, is_log e = false) tr.

Definition is_fault {A : Type} (a : Attempt A) : bool :=
  match a with Fault _ => true | Ok _ => false end.

(** The number of attempts that fail before the first success, among the
    [n] attempts that start at invocation [k]. *)
Fixpoint leading_faults {A : Type} (op : nat → Attempt A) (n k : nat) : nat :=
  match n with
  | 0 => 0
  | S n' => if is_fault (op k) then S (leading_faults op n' (S k)) else 0
  end.

(** The reading of "a delay only between two attempts": the pacing of a
    trace neither starts nor ends with a delay. *)
Definition is_delay (e : Effect) : bool :=
  match e with Delay _ => true | _ => false end.

Definition delays_only_between (tr : list Effect) : bool :=
  match pacing tr with
  | [] => true
  | e :: _ =>
      negb (is_delay e) &&
      match last (pacing tr) with Some e' => negb (is_delay e') | None => true end
  end.

End Retry.

(** ** The batches of the document handler (index.ts) *)

Module Batches.
Import Typings.

(** The closures handed to [concurrentDo]: [() => downloadSticker(...)],
    [() => uploadSticker(sticker)] and [() => addSticker(sticker)]. *)
Inductive StageTask :=
  | DownloadTask (sticker : LineSticker)
  | UploadTask (sticker : LineSticker)
  | AddTask (sticker : LineSticker).

(** [downloadStickers] (lines 86-95) *)
Definition downloadStickers_batch (stickersToBeUploaded : list LineSticker)
    : Scheduler.State :=
  Scheduler.concurrentDo (DownloadTask <$> stickersToBeUploaded)
                         5 300 (Some 20000%Z).

(** [uploadStickers] (lines 132-137) *)
Definition uploadStickers_batch (stickersToBeUploaded : list LineSticker)
    : Scheduler.State :=
  Scheduler.concurrentDo (UploadTask <$> stickersToBeUploaded)
                         5 1800 (Some 60000%Z).

(** [addStickers] (lines 189-194): [stickerSet.stickers.slice(1)] *)
Definition addStickers_batch (stickers : list LineSticker)
    : Scheduler.State :=
  Scheduler.concurrentDo (AddTask <$> drop 1 stickers) 2 1500 (Some 80000%Z).

End Batches.

(** ** The document handler (index.ts, lines 29-242) *)

Module Pipeline.
Import Validator.

(** What a run of the handler does, in order. *)
Inductive Step :=
  | SetFlag (value : bool)
  | Reply (text : string) (acked : bool)
  | ConsoleLog (text : string)
  | GetDocument
  | GetImageIds
  | DownloadBatch
  | Normalize
  | UploadBatch
  | CommitImageIds
  | Delay (ms : Z)
  | CreateNewStickerSet
  | AddBatch.

(** The collaborators of one run.  [reply k] tells whether the [k]-th call
    of [ctx.reply] of the run is acknowledged; [document] is the outcome of
    [getFileLink], [axios.get] and [JSON.parse]; the other fields are the
    outcomes of the Firestore read, of the three [concurrentDo] batches, of
    [Promise.all] over [normalizeImage], of [batch.commit] and of
    [createNewStickerSet].  [setName] is [formattedName(stickerSet.name)],
    which draws six random characters. *)
Record World := mkWorld {
  reply : nat → bool;
  document : Json + JsError;
  images : Settlement;
  setName : string;
  downloads : Settlement;
  normalized : Settlement;
  uploads : Settlement;
  committed : Settlement;
  created : Settlement;
  added : Settlement
}.

(** [processingChat], the number of [ctx.reply] calls of the run so far,
    and the steps taken. *)
Record St := mkSt {
  processingChat : gmap Z bool;
  replies : nat;
  steps : list Step
}.

(** An [async] function: it returns or throws, and changes the state. *)
Definition M (A : Type) : Type := St → (A + JsError) * St.

#[export] Instance M_ret : MRet M := λ A x st, (inl x, st).

#[export] Instance M_bind : MBind M := λ A B f m st,
  match m st with
  | (inl x, st') => f x st'
  | (inr err, st') => (inr err, st')
  end.

Definition throw {A : Type} (err : JsError) : M A := λ st, (inr err, st).

Definition record (s : Step) : M unit := λ st,
  (inl tt, mkSt (processingChat st) (replies st) (steps st ++ [s])).

(** [processingChat[userId]] as a condition: a missing entry is
    [undefined]. *)
Definition busy (flags : gmap Z bool) (userId : Z) : bool :=
  bool_decide (flags !! userId = Some true).

(** [processingChat[userId] = value] *)
Definition set_flag (userId : Z) (value : bool) : M unit := λ st,
  (inl tt, mkSt (<[userId := value]> (processingChat st)) (replies st)
                (steps st ++ [SetFlag value])).

(** [await ctx.reply(text, ...)] *)
Definition ctx_reply (w : World) (text : string) : M unit := λ st,
  let acked := reply w (replies st) in
  let st' := mkSt (processingChat st) (S (replies st))
                  (steps st ++ [Reply text acked]) in
  if acked then (inl tt, st')
  else (inr (OtherError "ctx.reply failed"), st').

(** A remote call or a batch: it is recorded and settles as the world
    says. *)
Definition await (s : Step) (outcome : Settlement) : M unit :=
  record s ;;
  match outcome with
  | Fulfilled => mret tt
  | Rejected err => throw err
  end.

(** [log] (lines 228-231) *)
Definition log (w : World) (str : string) : M unit :=
  ctx_reply w str ;; record (ConsoleLog str).

(** [fetchStickerSetObject] (lines 66-73) *)
Definition fetchStickerSetObject (w : World) : M Json :=
  record GetDocument ;;
  match document w with
  | inr err => throw err
  | inl result =>
      match isLineStickerSet result with
      | Some true => mret result
      | Some false =>
          throw (BotError "This file seems wrong... Please send a correct file.")
      | None => throw (OtherError "TypeError: Cannot use 'in' operator")
      end
  end.

(** [retrieveImageIds] (lines 75-82) *)
Definition retrieveImageIds (w : World) : M unit :=
  await GetImageIds (images w).

(** [downloadStickers] (lines 84-96) *)
Definition downloadStickers (w : World) : M unit :=
  log w "正在从 Line 下载贴纸..." ;;
  await DownloadBatch (downloads w) ;;
  log w "贴纸下载好了。".

(** [processStickers] (lines 120-128) *)
Definition processStickers (w : World) : M unit :=
  log w "正在缩放贴纸图片..." ;;
  await Normalize (normalized w) ;;
  log w "贴纸图片都处理好了。".

(** [uploadStickers] (lines 130-138) *)
Definition uploadStickers (w : World) : M unit :=
  log w "正在上传贴纸到 Telegram 服务器..." ;;
  await UploadBatch (uploads w) ;;
  log w "贴纸都上传好了。".

(** [addImageIds] (lines 166-176) *)
Definition addImageIds (w : World) : M unit :=
  await CommitImageIds (committed w).

(** [delay] (utils.ts, lines 62-68) *)
Definition delay (ms : Z) : M unit := record (Delay ms).

(** [createStickerSet] (lines 178-185): [firstSticker.fileId] throws when
    [stickerSet.stickers[0]] is [undefined]. *)
Definition createStickerSet (w : World) (stickerSet : Json) : M unit :=
  match stickers_of stickerSet !! 0 with
  | None =>
      throw (OtherError "TypeError: Cannot read property 'fileId' of undefined")
  | Some firstSticker =>
      await CreateNewStickerSet (created w) ;;
      log w "创建了一个新的贴纸包。"
  end.

(** [addStickers] (lines 187-194) *)
Definition addStickers (w : World) : M unit :=
  log w "正在把贴纸们加进贴纸包里。" ;;
  await AddBatch (added w).

(** [stickerSet.name] of a validated document *)
Definition name_of (stickerSet : Json) : string :=
  match get "name" stickerSet with
  | Some (JString name) => name
  | _ => ""
  end.

(** The guard at the head of the [try] block (lines 33-38) *)
Definition enter (w : World) (userId : Z) : M unit := λ st,
  if busy (processingChat st) userId then
    throw (BotError "我已经在吭哧吭哧地工作了，请等我把工作先做完！") st
  else
    (set_flag userId true ;;
     ctx_reply w "收到贴纸包文件～ 请耐心等待哦，整个过程至少需要一分钟。") st.

(** The [try] block (lines 33-64).  [setName], [title] and the two
    partitions are computed without effect; the partition is embedded in
    [Partition]. *)
Definition try_block (w : World) (userId : Z) : M unit :=
  enter w userId ;;
  stickerSet ← fetchStickerSetObject w;
  retrieveImageIds w ;;
  downloadStickers w ;;
  processStickers w ;;
  uploadStickers w ;;
  addImageIds w ;;
  delay 1000 ;;
  createStickerSet w stickerSet ;;
  delay 8000 ;;
  addStickers w ;;
  set_flag userId false ;;
  log w ("成功啦🥳！ 这就是你的贴纸包: [" +:+ name_of stickerSet +:+
         "](https://t.me/addstickers/" +:+ setName w +:+ ")").

(** The [catch] block (lines 232-241) *)
Definition catch_block (w : World) (userId : Z) (err : JsError) : M unit :=
  set_flag userId false ;;
  match err with
  | BotError message =>
      record (ConsoleLog message) ;;
      ctx_reply w ("糟糕，" +:+ message +:+ "😣！...再试一次吧～")
  | OtherError what =>
      record (ConsoleLog what) ;;
      ctx_reply w "奇怪的事情，发生了😣！...再试一次吧～"
  end.

(** How a run ends: the [try] block ran to its end, or the [catch] block
    was entered with the error. *)
Inductive Outcome :=
  | Completed
  | Failed (err : JsError).

(** The handler of [bot.on("document", ...)] for a document of [userId]. *)
Definition handler (w : World) (userId : Z) (st : St) : Outcome * St :=
  match try_block w userId st with
  | (inl _, st') => (Completed, st')
  | (inr err, st') => (Failed err, snd (catch_block w userId err st'))
  end.

(** A run starts with the flags as they are, no reply sent, no step
    taken. *)
Definition start (flags : gmap Z bool) : St := mkSt flags 0 [].

(** The steps that are pipeline stages, not reports to the user or flag
    assignments. *)
Definition is_stage (s : Step) : bool :=
  match s with
  | SetFlag _ | Reply _ _ | ConsoleLog _ => false
  | _ => true
  end.

Definition stages (st : St) : list Step :=
  filter (λ s, is_stage s = true) (steps st).

(** The number of assignments [processingChat[userId] = false] of a run. *)
Definition is_release (s : Step) : bool :=
  match s with SetFlag false => true | _ => false end.

Definition releases (st : St) : nat :=
  length (filter (λ s, is_release s = true) (steps st)).

(** The steps that follow the first call of [ctx.reply] that faults. *)
Fixpoint after_fault (l : list Step) : list Step :=
  match l with
  | [] => []
  | Reply _ false :: rest => rest
  | _ :: rest => after_fault rest
  end.

(** Whether some call of [ctx.reply] of the run faulted. *)
Definition is_faulted_reply (s : Step) : bool :=
  match s with Reply _ false => true | _ => false end.

Definition notify_faulted (st : St) : bool :=
  existsb is_faulted_reply (steps st).

(** A document with every field of a sticker set and the given stickers,
    and a sticker with every field of a sticker. *)
Definition set_document (stickers : list Json) : Json :=
  JObject [("id", JNumber 1); ("name", JString "n"); ("author", JString "a");
           ("authorUrl", JString "https://a"); ("mainImageUrl", JString "m");
           ("stickers", JArray stickers)].

Definition line_sticker (n : Z) : Json :=
  JObject [("id", JNumber n); ("url", JString "u"); ("emojis", JString "e")].

(** A world in which every collaborator succeeds, with the given
    behaviour of [ctx.reply]. *)
Definition smooth (acks : nat → bool) (doc : Json) : World :=
  mkWorld acks (inl doc) Fulfilled "n_abc123_by_stickers_l2t2_bot"
          Fulfilled Fulfilled Fulfilled Fulfilled Fulfilled Fulfilled.

(** Two worlds that differ at most in what [ctx.reply] does. *)
Definition same_collaborators (w w' : World) : Prop :=
  document w = document w' ∧ images w = images w' ∧ setName w = setName w' ∧
  downloads w = downloads w' ∧ normalized w = normalized w' ∧
  uploads w = uploads w' ∧ committed w = committed w' ∧
  created w = created w' ∧ added w = added w'.

(** Unfolds a run of the handler into its case analysis on the world. *)
Ltac run_handler :=
  unfold handler, try_block, catch_block, enter, fetchStickerSetObject,
    retrieveImageIds, downloadStickers, processStickers, uploadStickers,
    addImageIds, createStickerSet, addStickers, log, await, delay, record,
    set_flag, ctx_reply, throw, start;
  unfold mbind, M_bind, mret, M_ret; simpl.

(** Splits on the next answer of the world, in program order. *)
Ltac world_case w :=
  match goal with
  | |- context [reply w ?k] => destruct (reply w k) eqn:?
  | |- context [document w] => destruct (document w) as [?|?] eqn:?
  | |- context [isLineStickerSet ?d] =>
      destruct (isLineStickerSet d) as [[|]|] eqn:?
  | |- context [images w] => destruct (images w) eqn:?
  | |- context [downloads w] => destruct (downloads w) eqn:?
  | |- context [normalized w] => destruct (normalized w) eqn:?
  | |- context [uploads w] => destruct (uploads w) eqn:?
  | |- context [committed w] => destruct (committed w) eqn:?
  | |- context [stickers_of ?d !! 0] => destruct (stickers_of d !! 0) eqn:?
  | |- context [created w] => destruct (created w) eqn:?
  | |- context [added w] => destruct (added w) eqn:?
  | |- context [match ?e with BotError _ => _ | OtherError _ => _ end] =>
      destruct e
  end; simpl.

End Pipeline.

(** ** What a batch keeps about its settlement *)

Module SchedulerLaws.
Import Scheduler.

Section Laws.
Context {Task : Type}.
Variable result : Task → Settlement.

(** Facts that hold after every callback of a batch called with [timeout],
    whatever its tasks do: a resolved batch has nothing waiting, nothing in
    its slots and no live timer; as long as no slot is stale, every task
    that settled has fulfilled; a rejection carries the timeout error or
    the error of a task that settled; an unsettled batch has its interval
    timer live and its timeout timer as it was created; a timeout that is
    falsy never creates the timeout timer. *)
Record settlement_inv (timeout : option Z) (s : State (Task:=Task))
    : Prop := mkSettlementInv {
  si_resolved :
    settled s = Some Fulfilled →
    taskToBeExcuted s = [] ∧ Forall (λ sl, sl = Empty) (queue s) ∧
    timer s ≠ Live ∧ timeoutTimer s ≠ Live;
  si_clean :
    Forall (λ sl, sl ≠ Stale) (queue s) →
    Forall (λ t, result t = Fulfilled) (finished s);
  si_rejected :
    ∀ err, settled s = Some (Rejected err) →
    err = timeoutError ∨ ∃ t, t ∈ finished s ∧ result t = Rejected err;
  si_armed :
    settled s = None →
    timer s = Live ∧
    timeoutTimer s = (if truthy_timeout timeout then Live else NotStarted);
  si_unarmed :
    truthy_timeout timeout = false → timeoutTimer s = NotStarted
}.

End Laws.
End SchedulerLaws.

(** ** What makes the validators throw *)

Module ValidatorLaws.
Import Validator.

(** A value on which the [in] operator throws a [TypeError]: anything but
    an object or an array. *)
Definition primitive (v : Json) : bool :=
  match v with
  | JObject _ | JArray _ => false
  | JNull | JBool _ | JNumber _ | JString _ => true
  end.

(** The six fields of a sticker set that are read before [stickers] is
    walked, with the [typeof] each must have. *)
Definition header_ok (obj : Json) : Prop :=
  (∃ n, get "id" obj = Some (JNumber n)) ∧
  (∃ s, get "name" obj = Some (JString s)) ∧
  (∃ s, get "author" obj = Some (JString s)) ∧
  (∃ s, get "authorUrl" obj = Some (JString s)) ∧
  (∃ s, get "mainImageUrl" obj = Some (JString s)) ∧
  (∃ items, get "stickers" obj = Some (JArray items)).

End ValidatorLaws.

(** ** The cache of file ids in Firestore (index.ts, lines 75-82 and
    166-176) *)

Module Cache.
Import Typings Partition.

(** The [images] collection is a map from document names to the [fileId]
    field of the document.  A document is named by the decimal form of a
    sticker id ([sticker.id.toString()]) and read back with
    [parseInt(doc.id)]; sticker ids are integers, so a document is keyed
    here by the integer itself. *)

(** [retrieveImageIds] (lines 75-82): [result[parseInt(doc.id)] = ...] for
    every document of the snapshot. *)
Definition retrieveImageIds (images : gmap Z string) : gmap Z string :=
  fold_left (λ result doc, <[doc.1 := doc.2]> result) (map_to_list images) ∅.

(** The callback of [stickers.forEach] in [addImageIds] (lines 168-174):
    [batch.set] is queued only [if (sticker.fileId)]. *)
Definition batch_set (batch : list (Z * string)) (sticker : LineSticker)
    : list (Z * string) :=
  if truthy (fileId sticker) then
    match fileId sticker with
    | Some f => batch ++ [(id sticker, f)]
    | None => batch
    end
  else batch.

(** The write queued for a sticker, if any. *)
Definition queued (sticker : LineSticker) : option (Z * string) :=
  if truthy (fileId sticker) then (λ f, (id sticker, f)) <$> fileId sticker
  else None.

(** [batch.commit()]: the queued writes are applied in order, each one
    replacing the document it names. *)
Definition commit (batch : list (Z * string)) (images : gmap Z string)
    : gmap Z string :=
  fold_left (λ db write, <[write.1 := write.2]> db) batch images.

(** [addImageIds] (lines 166-176) *)
Definition addImageIds (stickers : list LineSticker) (images : gmap Z string)
    : gmap Z string :=
  commit (fold_left batch_set stickers []) images.

End Cache.

(** ** The name of the sticker set (utils.ts, lines 33-49) *)

Module Names.

(** A JS string is a sequence of UTF-16 code units; the regular
    expressions of [formattedName] have no [u] flag and see code units. *)
Definition JsString := list N.

Definition units (s : string) : JsString :=
  Ascii.N_of_ascii <$> String.list_ascii_of_string s.

Definition underscore : N := 95.

(** [\w]: [[A-Za-z0-9_]] *)
Definition is_alnum (c : N) : bool :=
  ((48 <=? c) && (c <=? 57) || (65 <=? c) && (c <=? 90) ||
   (97 <=? c) && (c <=? 122))%N.

Definition is_word (c : N) : bool := is_alnum c || (c =? underscore)%N.

(** [str.replace(/[^\w]/g, "_")] *)
Definition replace_non_word (str : JsString) : JsString :=
  (λ c, if is_word c then c else underscore) <$> str.

(** [/^\w/.test(result)] *)
Definition starts_with_word (str : JsString) : bool :=
  match str with
  | c :: _ => is_word c
  | [] => false
  end.

Definition characters : JsString :=
  units "ABCDEFGHIJKLMNOPQRSTUVWXYZabcdefghijklmnopqrstuvwxyz0123456789".

(** [characters.charAt(i)]: the empty string when [i] is out of range. *)
Definition charAt (s : JsString) (i : nat) : JsString :=
  match s !! i with
  | Some c => [c]
  | None => []
  end.

(** [uniqueId] (lines 34-41).  [random i] is the value of
    [Math.floor(Math.random() * characters.length)] in the [i]-th
    iteration of the loop. *)
Definition uniqueId (random : nat → nat) (length : nat) : JsString :=
  fold_left (λ resultStr i, resultStr ++ charAt characters (random i))
            (seq 0 length) [].

(** [result.split(/_{2,}/).join("")]: every maximal run of two or more
    underscores is removed, a single underscore stays.  [pending] counts
    the underscores of the run being read. *)
Fixpoint drop_runs (pending : nat) (s : JsString) : JsString :=
  match s with
  | [] => if pending =? 1 then [underscore] else []
  | c :: rest =>
      if (c =? underscore)%N then drop_runs (S pending) rest
      else (if pending =? 1 then [underscore] else []) ++
           c :: drop_runs 0 rest
  end.

(** [formattedName] (lines 33-49) *)
Definition formattedName (random : nat → nat) (str : JsString) : JsString :=
  let result := replace_non_word str in
  let result := if negb (starts_with_word result)
                then units "L2T_" ++ result else result in
  let result := result ++ [underscore] ++ uniqueId random 6 ++
                units "_by_stickers_l2t2_bot" in
  drop_runs 0 result.

(** No two underscores in a row. *)
Fixpoint no_double (s : JsString) : bool :=
  match s with
  | c :: rest =>
      match rest with
      | c' :: _ =>
          negb ((c =? underscore)%N && (c' =? underscore)%N) && no_double rest
      | [] => true
      end
  | [] => true
  end.

End Names.

(** ** The first collaborator of a run that fails *)

Module PipelineLaws.
Import Pipeline.

(** The order in which the [try] block awaits its stages. *)
Definition program : list Step :=
  [GetDocument; GetImageIds; DownloadBatch; Normalize; UploadBatch;
   CommitImageIds; Delay 1000; CreateNewStickerSet; Delay 8000; AddBatch].

(** The settlements the [try] block awaits after the document is read, in
    the order it awaits them. *)
Definition awaited (w : World) : list Settlement :=
  [images w; downloads w; normalized w; uploads w; committed w; created w;
   added w].

Fixpoint first_rejection (l : list Settlement) : option JsError :=
  match l with
  | [] => None
  | Fulfilled :: rest => first_rejection rest
  | Rejected err :: _ => Some err
  end.



End PipelineLaws.

(** * Part II: properties *)

(** ** The scheduler *)

Section SchedulerFacts.
Import Scheduler.
Context {Task : Type} (result : Task → Settlement).
Implicit Types (s : State (Task:=Task)) (q : list (Slot (Task:=Task))).
Implicit Types (l tasks : list Task) (t : Task).

Lemma pop_nil : pop ([] : list Task) = None.
Proof. reflexivity. Qed.

Lemma pop_snoc l t : pop (l ++ [t]) = Some (t, l).
Proof.
  unfold pop. rewrite last_snoc, length_app. simpl.
  replace (length l + 1 - 1) with (length l) by lia.
  by rewrite take_app_length.
Qed.

Lemma pop_Some l t rest : pop l = Some (t, rest) → l = rest ++ [t].
Proof.
  destruct l as [|x l'] using rev_ind; [done|].
  rewrite pop_snoc. by intros [= -> ->].
Qed.

Lemma pop_None l : pop l = None → l = [].
Proof.
  destruct l as [|x l'] using rev_ind; [done|]. by rewrite pop_snoc.
Qed.

(** *** Slots *)

Lemma in_flight_start q i t :
  q !! i = Some Empty →
  omap running (<[i := Pending t]> q) ≡ₚ t :: omap running q.
Proof.
  revert i. induction q as [|sl q IH]; intros [|i] Hi; simplify_eq/=; [done|].
  specialize (IH _ Hi). destruct sl; simpl; [done| |done].
  rewrite IH. apply Permutation_swap.
Qed.

Lemma in_flight_stop q i t sl :
  q !! i = Some (Pending t) → running sl = None →
  omap running q ≡ₚ t :: omap running (<[i := sl]> q).
Proof.
  intros Hi Hsl. revert i Hi.
  induction q as [|sl' q IH]; intros [|i] Hi; simplify_eq/=.
  - by rewrite Hsl.
  - specialize (IH _ Hi). destruct sl'; simpl; [done| |done].
    rewrite IH. apply Permutation_swap.
Qed.


Lemma falsy_Some_Empty (o : option (Slot (Task:=Task))) i q :
  i < length q → o = q !! i → falsy o = true → q !! i = Some Empty.
Proof.
  intros Hi -> Hf. destruct (lookup_lt_is_Some_2 q i Hi) as [sl Hsl].
  rewrite Hsl in *. by destruct sl.
Qed.

(** [isQueueEmpty] looks at every slot. *)
Lemma isQueueEmpty_spec s :
  length (queue s) = pLimit s →
  isQueueEmpty s = true ↔ Forall (λ sl, sl = Empty) (queue s).
Proof.
  intros Hlen. unfold isQueueEmpty. rewrite forallb_forall, Forall_lookup.
  split.
  - intros H i sl Hi.
    assert (i < pLimit s) as Hlt by (rewrite <- Hlen; by eapply lookup_lt_Some).
    specialize (H i). rewrite in_seq in H. rewrite Hi in H.
    destruct sl; try done; simpl in H; discriminate H; lia.
  - intros H i Hi%in_seq.
    assert (i < length (queue s)) as Hlt by lia.
    destruct (lookup_lt_is_Some_2 _ _ Hlt) as [sl Hsl]. rewrite Hsl.
    by rewrite (H _ _ Hsl).
Qed.

Lemma all_Empty_in_flight q :
  Forall (λ sl, sl = Empty) q → omap running q = [].
Proof. induction 1 as [|sl q -> _ IH]; [done|]. by simpl. Qed.



(** *** [fillQueue] *)

(** An iteration of the loop either does nothing or moves the last waiting
    task into the empty slot [i]. *)
Lemma fill_slot_cases s i :
  i < pLimit s → length (queue s) = pLimit s →
  fill_slot s i = s ∨
  ∃ t rest, queue s !! i = Some Empty ∧ taskToBeExcuted s = rest ++ [t] ∧
    fill_slot s i =
      mkState (<[i := Pending t]> (queue s)) rest (pLimit s) (period s)
              (timer s) (timeoutTimer s) (settled s) (started s ++ [t])
              (finished s).
Proof.
  intros Hi Hlen. unfold fill_slot.
  destruct (falsy (queue s !! i)) eqn:Hf; [|by left].
  destruct (pop (taskToBeExcuted s)) as [[t rest]|] eqn:Hpop; [|by left].
  right. exists t, rest. split_and!; [|by apply pop_Some|done].
  eapply falsy_Some_Empty; [|done|done]. lia.
Qed.

Lemma fill_slot_pLimit s i : pLimit (fill_slot s i) = pLimit s.
Proof.
  unfold fill_slot. destruct (falsy _); [|done].
  by destruct (pop _) as [[??]|].
Qed.

Lemma fill_fold (P : State → Prop) :
  (∀ s i, i < pLimit s → P s → P (fill_slot s i)) →
  ∀ (ixs : list nat) s,
    Forall (λ i, i < pLimit s) ixs → P s → P (fold_left fill_slot ixs s).
Proof.
  intros Hstep. induction ixs as [|i ixs IH]; intros s Hixs Hs; [done|].
  inversion_clear Hixs as [|?? Hi Hrest]. simpl. apply IH.
  - by rewrite fill_slot_pLimit.
  - by apply Hstep.
Qed.

Lemma fillQueue_ind (P : State → Prop) s :
  (∀ s i, i < pLimit s → P s → P (fill_slot s i)) → P s → P (fillQueue s).
Proof.
  intros Hstep Hs. unfold fillQueue. apply fill_fold; [done| |done].
  apply Forall_forall. intros i Hi%list_elem_of_In%in_seq. lia.
Qed.

Lemma fill_slot_inv tasks s i :
  i < pLimit s → inv tasks s → inv tasks (fill_slot s i).
Proof.
  intros Hi [Hlen Hord Hfl].
  destruct (fill_slot_cases s i Hi Hlen) as [->|(t & rest & Hq & Hrem & ->)];
    [done|].
  constructor; simpl.
  - by rewrite length_insert.
  - rewrite reverse_snoc. rewrite Hrem in Hord.
    by rewrite <- Hord, <- app_assoc.
  - unfold in_flight in *. simpl. rewrite in_flight_start by done.
    etrans; [apply Permutation_app_comm|]. simpl. rewrite Hfl.
    apply Permutation_middle.
Qed.

Lemma fillQueue_inv tasks s : inv tasks s → inv tasks (fillQueue s).
Proof. apply fillQueue_ind. intros. by apply fill_slot_inv. Qed.

(** [fillQueue] touches neither the timers nor the settlement nor the log
    of settled tasks. *)
Lemma fillQueue_frame s :
  timer (fillQueue s) = timer s ∧ timeoutTimer (fillQueue s) = timeoutTimer s ∧
  settled (fillQueue s) = settled s ∧ finished (fillQueue s) = finished s ∧
  pLimit (fillQueue s) = pLimit s.
Proof.
  apply (fillQueue_ind (λ s', timer s' = timer s ∧
    timeoutTimer s' = timeoutTimer s ∧ settled s' = settled s ∧
    finished s' = finished s ∧ pLimit s' = pLimit s)); [|done].
  intros s' i _ H. unfold fill_slot. destruct (falsy _); [|done].
  by destruct (pop _) as [[??]|].
Qed.


Lemma fill_slot_length s i :
  length (queue (fill_slot s i)) = length (queue s).
Proof.
  unfold fill_slot. destruct (falsy _); [|done].
  destruct (pop _) as [[??]|]; [|done]. simpl. by rewrite length_insert.
Qed.


(** *** What one pass of [fillQueue] starts *)

Lemma fill_slot_falsy_stable s k j :
  falsy (queue s !! j) = false → falsy (queue (fill_slot s k) !! j) = false.
Proof.
  intros Hj. unfold fill_slot.
  destruct (falsy (queue s !! k)) eqn:Hk; [|done].
  destruct (pop _) as [[t rest]|]; [|done]. simpl.
  destruct (decide (k = j)) as [->|Hne]; [congruence|].
  by rewrite list_lookup_insert_ne.
Qed.

Lemma fill_slot_drained s k :
  taskToBeExcuted s = [] → fill_slot s k = s.
Proof.
  intros Hnil. unfold fill_slot. rewrite Hnil.
  by destruct (falsy _).
Qed.

Lemma fill_slot_occupied s k :
  falsy (queue s !! k) = false → fill_slot s k = s.
Proof. intros Hk. unfold fill_slot. by rewrite Hk. Qed.

(** The loop over the slots [i .. i+n-1], all of them empty: it starts the
    last [n] waiting tasks, the last one first. *)
Lemma fill_fresh n : ∀ i s,
  i + n ≤ length (queue s) →
  (∀ j, i ≤ j < i + n → queue s !! j = Some Empty) →
  let s' := fold_left fill_slot (seq i n) s in
  started s' = started s ++ take n (reverse (taskToBeExcuted s)) ∧
  taskToBeExcuted s' =
    take (length (taskToBeExcuted s) - n) (taskToBeExcuted s) ∧
  finished s' = finished s.
Proof.
  induction n as [|n IH]; intros i s Hlen Hfree; simpl.
  { rewrite app_nil_r, Nat.sub_0_r, firstn_all. done. }
  unfold fill_slot at 2 4 6. rewrite (Hfree i) by lia. simpl.
  destruct (taskToBeExcuted s) as [|t rest _] eqn:Hrem using rev_ind.
  - simpl. destruct (IH (S i) s) as (H1 & H2 & H3); [lia| |].
    { intros j Hj. apply Hfree. lia. }
    rewrite Hrem in H1, H2. simpl in H1, H2.
    change (reverse []) with (@nil Task) in H1. rewrite take_nil in H1.
    by rewrite H1, H2, H3.
  - rewrite pop_snoc. set (s1 := mkState _ _ _ _ _ _ _ _ _).
    destruct (IH (S i) s1) as (H1 & H2 & H3).
    { simpl. rewrite length_insert. lia. }
    { intros j Hj. simpl. rewrite list_lookup_insert_ne by lia.
      apply Hfree. lia. }
    rewrite H1, H2, H3. simpl. rewrite reverse_snoc, length_app. simpl.
    rewrite <- app_assoc. simpl. split_and!; [done| |done].
    replace (length rest + 1 - S n) with (length rest - n) by lia.
    rewrite take_app_le by lia. done.
Qed.

Lemma fillQueue_saturated s :
  length (queue s) = pLimit s → saturated (fillQueue s).
Proof.
  intros Hlen. unfold saturated, fillQueue.
  enough (∀ n i s, i + n ≤ length (queue s) →
            let s' := fold_left fill_slot (seq i n) s in
            pLimit s' = pLimit s ∧ length (queue s') = length (queue s) ∧
            (taskToBeExcuted s' = [] ∨
             ∀ j, i ≤ j < i + n → falsy (queue s' !! j) = false)) as Hgen.
  { destruct (Hgen (pLimit s) 0 s) as (Hp & _ & [?|Hocc]); [lia|by left|].
    right. intros j Hj. apply Hocc. unfold fillQueue in *. lia. }
  clear. induction n as [|n IH]; intros i s Hlen; simpl.
  { split_and!; [done..|]. right. intros j Hj. lia. }
  destruct (IH (S i) (fill_slot s i)) as (Hp & Hl & Hsat).
  { rewrite fill_slot_length. lia. }
  rewrite Hp, Hl, fill_slot_pLimit, fill_slot_length.
  split_and!; [done..|].
  destruct Hsat as [?|Hocc]; [by left|].
  assert (taskToBeExcuted (fill_slot s i) = [] ∨
          falsy (queue (fill_slot s i) !! i) = false) as [Hnil|Hi].
  { unfold fill_slot. destruct (falsy (queue s !! i)) eqn:Hf; [|by right].
    destruct (pop (taskToBeExcuted s)) as [[t rest]|] eqn:Hpop.
    - right. simpl. by rewrite list_lookup_insert_eq by lia.
    - left. by apply pop_None. }
  - left. clear -Hnil. revert Hnil. generalize (fill_slot s i) (S i).
    induction n as [|n IHn]; intros s' k Hnil; [done|]. simpl.
    apply IHn. by rewrite fill_slot_drained.
  - right. intros j Hj. destruct (decide (j = i)) as [->|Hne]; [|apply Hocc; lia].
    clear -Hi. revert Hi. generalize (fill_slot s i) (S i).
    induction n as [|n IHn]; intros s' k Hi; [done|]. simpl.
    apply IHn. by apply fill_slot_falsy_stable.
Qed.

(** A pass over a saturated state starts nothing. *)
Lemma saturated_fillQueue s : saturated s → fillQueue s = s.
Proof.
  intros Hsat. unfold fillQueue.
  enough (∀ ixs, Forall (λ j, j < pLimit s) ixs →
                 fold_left fill_slot ixs s = s) as Hgen.
  { apply Hgen, Forall_forall. intros j Hj%list_elem_of_In%in_seq. lia. }
  induction ixs as [|j ixs IH]; intros Hixs; [done|].
  inversion_clear Hixs as [|?? Hj Hrest]. simpl.
  assert (fill_slot s j = s) as ->; [|by apply IH].
  destruct Hsat as [Hnil|Hocc];
    [by apply fill_slot_drained|by apply fill_slot_occupied, Hocc].
Qed.

(** *** The invariant along a run *)

Lemma omap_running_length q : length (omap running q) ≤ length q.
Proof. induction q as [|sl q IH]; [done|]. destruct sl; csimpl; lia. Qed.

Lemma inv_cleanup tasks s : inv tasks s → inv tasks (cleanup s).
Proof. by intros []. Qed.

Lemma inv_settle tasks r s : inv tasks s → inv tasks (settle r s).
Proof. intros []. unfold settle. by destruct (settled s). Qed.

Lemma inv_settled_slot tasks s i t sl :
  inv tasks s → queue s !! i = Some (Pending t) → running sl = None →
  inv tasks (mkState (<[i := sl]> (queue s)) (taskToBeExcuted s) (pLimit s)
                     (period s) (timer s) (timeoutTimer s) (settled s)
                     (started s) (finished s ++ [t])).
Proof.
  intros [Hlen Hord Hfl] Hi Hsl. constructor; simpl.
  - by rewrite length_insert.
  - done.
  - unfold in_flight in *. simpl. rewrite Hfl.
    rewrite (in_flight_stop _ _ _ _ Hi Hsl).
    rewrite <- app_assoc. done.
Qed.

Lemma step_inv tasks s e : inv tasks s → inv tasks (step result s e).
Proof.
  intros Hs. destruct e as [|i|]; simpl.
  - destruct (timer s); [done| |done]. by apply fillQueue_inv.
  - destruct (queue s !! i) as [[|t|]|] eqn:Hi; try done.
    destruct (result t) as [|err].
    + unfold on_fulfilled.
      pose proof (inv_settled_slot tasks s i t Empty Hs Hi eq_refl) as Hs1.
      destruct (_ && _); [|done]. by apply inv_settle, inv_cleanup.
    + unfold on_rejected. apply inv_settle, inv_cleanup.
      by apply inv_settled_slot.
  - destruct (timeoutTimer s); [done| |done].
    unfold on_timeout. apply inv_settle. by destruct Hs.
Qed.

Lemma run_inv tasks es s : inv tasks s → inv tasks (run result s es).
Proof.
  revert s. induction es as [|e es IH]; intros s Hs; [done|].
  simpl. by apply IH, step_inv.
Qed.

Lemma concurrentDo_inv tasks limit interval timeout :
  inv tasks (concurrentDo tasks limit interval timeout).
Proof.
  assert (inv tasks (mkState (replicate limit Empty) tasks limit interval
                             NotStarted NotStarted None [] [])) as H0.
  { constructor; simpl.
    - by rewrite length_replicate.
    - by rewrite app_nil_r.
    - unfold in_flight. simpl. rewrite all_Empty_in_flight; [done|].
      by apply Forall_replicate. }
  unfold concurrentDo. destruct tasks as [|t tasks]; [by apply inv_settle|].
  by destruct (fillQueue_inv _ _ H0).
Qed.

(** Every state a batch can reach satisfies the invariant. *)
Lemma reachable_inv tasks limit interval timeout es :
  inv tasks (run result (concurrentDo tasks limit interval timeout) es).
Proof. apply run_inv, concurrentDo_inv. Qed.

Lemma inv_outstanding tasks s : inv tasks s → outstanding s ≤ pLimit s.
Proof.
  intros [Hlen _ _]. rewrite <- Hlen. apply omap_running_length.
Qed.


Lemma step_pLimit s e : pLimit (step result s e) = pLimit s.
Proof.
  destruct e as [|i|]; simpl.
  - destruct (timer s); [done| |done]. apply fillQueue_frame.
  - destruct (queue s !! i) as [[|t|]|]; try done.
    destruct (result t); [|unfold on_rejected, settle; simpl;
                            by destruct (settled s)].
    unfold on_fulfilled. destruct (_ && _); [|done].
    unfold settle; simpl. by destruct (settled s).
  - destruct (timeoutTimer s); [done| |done].
    unfold on_timeout, settle; simpl. by destruct (settled s).
Qed.

Lemma concurrentDo_pLimit tasks limit interval timeout es :
  pLimit (run result (concurrentDo tasks limit interval timeout) es) = limit.
Proof.
  assert (∀ s, pLimit (run result s es) = pLimit s) as Hrun.
  { induction es as [|e es IH]; intros s; [done|].
    simpl. by rewrite IH, step_pLimit. }
  rewrite Hrun. unfold concurrentDo. destruct tasks; [done|]. simpl.
  apply fillQueue_frame.
Qed.

(** *** Batches in which nothing rejects and the timeout does not fire *)






(** *** Progress *)






(** *** The batch of all-succeeding tasks *)



(** Either some slot below [pLimit] is empty or none is. *)
Lemma free_slot_or_full s :
  length (queue s) = pLimit s →
  (∃ i, i < pLimit s ∧ queue s !! i = Some Empty) ∨
  (∀ j, j < pLimit s → falsy (queue s !! j) = false).
Proof.
  intros <-. induction (queue s) as [|sl q IH]; simpl.
  { right. intros j Hj. lia. }
  destruct sl as [|t|].
  - left. exists 0. split; [lia|done].
  - destruct IH as [(i & Hi & Hq)|Hfull].
    + left. exists (S i). split; [lia|done].
    + right. intros [|j] Hj; [done|]. apply Hfull. lia.
  - destruct IH as [(i & Hi & Hq)|Hfull].
    + left. exists (S i). split; [lia|done].
    + right. intros [|j] Hj; [done|]. apply Hfull. lia.
Qed.

(** *** Dispatch order *)

(** The tasks started so far are the end of the input list, last task
    first. *)
Lemma started_prefix_reverse tasks s :
  inv tasks s → started s `prefix_of` reverse tasks.
Proof.
  intros [_ Hord _]. exists (reverse (taskToBeExcuted s)).
  by rewrite <- Hord, reverse_app, reverse_involutive.
Qed.

(** C10, amended.  The call itself starts [min N limit] tasks, before any
    tick: they are the last [min N limit] tasks of the list, taken from its
    end backwards.  Ticks that fire before a task has settled start
    nothing; if tasks are still waiting after the call, every slot is
    occupied; and a task is started later only by a tick that finds an
    empty slot. *)
Theorem C10_initial_dispatch tasks limit interval timeout :
  let s0 := concurrentDo tasks limit interval timeout in
  started s0 = take (length tasks `min` limit) (reverse tasks) ∧
  outstanding s0 = length tasks `min` limit ∧
  finished s0 = [] ∧
  (∀ n, run result s0 (replicate n Tick) = s0) ∧
  (taskToBeExcuted s0 ≠ [] →
     ∀ i, i < limit → ∃ t, queue s0 !! i = Some (Pending t)) ∧
  (∀ es e,
     started (step result (run result s0 es) e) ≠ started (run result s0 es) →
     e = Tick ∧ ∃ i, i < limit ∧ queue (run result s0 es) !! i = Some Empty).
Proof.
  intros s0.
  pose proof (concurrentDo_inv tasks limit interval timeout) as Hinv.
  fold s0 in Hinv.
  set (s00 := mkState (replicate limit Empty) tasks limit interval
                      NotStarted NotStarted None [] []).
  destruct (fill_fresh limit 0 s00) as (Hst & Hrem & Hfin).
  { simpl. by rewrite length_replicate. }
  { intros j Hj. simpl. apply lookup_replicate_2. lia. }
  assert (started s0 = take limit (reverse tasks) ∧ finished s0 = [])
    as [Hstarted Hfinished].
  { subst s0. unfold concurrentDo. destruct tasks as [|t tasks'].
    - simpl. change (reverse []) with (@nil Task). by rewrite take_nil.
    - simpl. fold s00. unfold fillQueue. simpl pLimit. by rewrite Hst, Hfin. }
  assert (saturated s0) as Hsat.
  { subst s0. unfold concurrentDo. destruct tasks as [|t tasks']; [by left|].
    fold s00. apply (fillQueue_saturated s00). apply length_replicate. }
  assert (take limit (reverse tasks)
          = take (length tasks `min` limit) (reverse tasks)) as Htake.
  { destruct (Nat.le_gt_cases limit (length tasks)).
    - by rewrite Nat.min_r.
    - rewrite Nat.min_l by lia.
      rewrite !take_ge; rewrite ?length_reverse; [done|lia..]. }
  split_and!.
  - by rewrite Hstarted.
  - destruct Hinv as [_ _ Hfl]. rewrite Hfinished in Hfl. simpl in Hfl.
    unfold outstanding. rewrite <- Hfl, Hstarted.
    rewrite length_take, length_reverse. lia.
  - done.
  - assert (step result s0 Tick = s0) as Htick.
    { simpl. destruct (timer s0); [done| |done]. by apply saturated_fillQueue. }
    induction n as [|n IHn]; [done|].
    change (run result (step result s0 Tick) (replicate n Tick) = s0).
    by rewrite Htick.
  - intros Hwait i Hi. destruct Hsat as [?|Hocc]; [done|].
    assert (pLimit s0 = limit) as Hp
      by apply (concurrentDo_pLimit tasks limit interval timeout []).
    specialize (Hocc i). rewrite Hp in Hocc. specialize (Hocc Hi).
    destruct (queue s0 !! i) as [[|t|]|] eqn:Hq; try done.
    + by exists t.
    + exfalso. destruct Hinv as [_ _ Hfl].
      (* a stale slot needs a settled task *)
      clear -Hfinished Hq Hst Hfin s00 Hwait.
      subst s0. unfold concurrentDo in *. destruct tasks as [|t tasks']; [done|].
      simpl in Hq. fold s00 in Hq.
      assert (Forall (λ sl, sl ≠ Stale) (queue (fillQueue s00))) as Hns.
      { apply (fillQueue_ind (λ s', Forall (λ sl, sl ≠ Stale) (queue s'))).
        - intros s' k _ Hs'. unfold fill_slot. destruct (falsy _); [|done].
          destruct (pop _) as [[??]|]; [|done]. simpl.
          by apply Forall_insert.
        - simpl. by apply Forall_replicate. }
      by apply (Forall_lookup_1 _ _ _ _ Hns Hq).
  - intros es e Hne.
    pose proof (reachable_inv tasks limit interval timeout es) as Hinv'.
    pose proof (concurrentDo_pLimit tasks limit interval timeout es) as Hp.
    fold s0 in Hinv', Hp. set (s := run result s0 es) in *.
    destruct e as [|i|]; simpl in Hne.
    + split; [done|]. destruct (timer s); [done| |done].
      destruct (free_slot_or_full s) as [Hfree|Hfull];
        [by destruct Hinv'| |exfalso].
      * destruct Hfree as (i & Hi & Hq). exists i. by rewrite <- Hp.
      * apply Hne. f_equal. apply saturated_fillQueue. by right.
    + exfalso. apply Hne.
      destruct (queue s !! i) as [[|t|]|]; try done.
      destruct (result t); unfold on_fulfilled, on_rejected, settle; simpl;
        [destruct (_ && _); simpl|]; by destruct (settled s).
    + exfalso. apply Hne. destruct (timeoutTimer s); [done| |done].
      unfold on_timeout, settle; simpl. by destruct (settled s).
Qed.

End SchedulerFacts.

Section SchedulerRuns.
Import Scheduler.

(** Three tasks under a limit of two: the call starts tasks 3 and 2; task 1
    waits for a tick after a slot has been freed; the batch resolves when
    the last task settles, and both timers are cleared. *)
Example three_tasks_limit_two :
  let result := λ _ : nat, Fulfilled in
  let s0 := concurrentDo [1; 2; 3] 2 300 (Some 20000%Z) in
  queue s0 = [Pending 3; Pending 2] ∧ taskToBeExcuted s0 = [1] ∧
  queue (run result s0 [Settle 0; Tick]) = [Pending 1; Pending 2] ∧
  let s := run result s0 [Settle 0; Tick; Settle 1; Settle 0] in
  settled s = Some Fulfilled ∧ started s = [3; 2; 1] ∧
  timer s = Cleared ∧ timeoutTimer s = Cleared.
Proof. by vm_compute. Qed.

(** A task that rejects: the batch rejects with its error, both timers are
    cleared, and the waiting task is never started. *)
Example rejecting_task_stops_admission :
  let result := λ t : nat,
    if decide (t = 2) then Rejected (OtherError "boom") else Fulfilled in
  let s := run result (concurrentDo [1; 2; 3] 2 300 (Some 20000%Z))
               [Settle 1; Tick; Settle 0; Tick] in
  settled s = Some (Rejected (OtherError "boom")) ∧ started s = [3; 2] ∧
  taskToBeExcuted s = [1] ∧ timer s = Cleared ∧ timeoutTimer s = Cleared.
Proof. by vm_compute. Qed.


(** C10 as stated fails: with three tasks and a limit of two the call
    starts the third and the second task, in this order, while the first
    two tasks of the list are the first and the second. *)
Lemma C10_first_tasks_counterexample :
  started (concurrentDo [1; 2; 3] 2 0 None) = [3; 2] ∧
  take (length [1; 2; 3] `min` 2) [1; 2; 3] = [1; 2].
Proof. split; reflexivity. Qed.

(** C2, amended.  In every run of a batch, whatever the tasks do and
    whenever the timers fire, the tasks are started from the end of the
    input list backwards: the tasks started so far are a prefix of the
    reversed list, so the [k]-th task started is the [k]-th from the end.
    In particular the batch of [addStickers] submits the stickers after the
    first one in the reverse of the set's order. *)
Theorem C2_dispatch_is_reverse_order :
  (∀ (Task : Type) (result : Task → Settlement) (tasks : list Task)
     (limit : nat) (interval : Z) (timeout : option Z) (es : list Event),
     let s := run result (concurrentDo tasks limit interval timeout) es in
     started s `prefix_of` reverse tasks ∧
     ∀ k t, started s !! k = Some t → tasks !! (length tasks - S k) = Some t) ∧
  (∀ (result : Batches.StageTask → Settlement)
     (stickers : list Typings.LineSticker) (es : list Event),
     started (run result (Batches.addStickers_batch stickers) es)
     `prefix_of` reverse (Batches.AddTask <$> drop 1 stickers)).
Proof.
  assert (∀ (Task : Type) (result : Task → Settlement) (tasks : list Task)
     (limit : nat) (interval : Z) (timeout : option Z) (es : list Event),
     started (run result (concurrentDo tasks limit interval timeout) es)
     `prefix_of` reverse tasks) as Hpre.
  { intros. eapply started_prefix_reverse, reachable_inv. }
  split.
  - intros Task result tasks limit interval timeout es s. split; [apply Hpre|].
    intros k t Hk.
    eapply prefix_lookup_Some in Hk; [|apply Hpre].
    by apply reverse_lookup_Some in Hk as [Hk _].
  - intros result stickers es. apply Hpre.
Qed.

(** C2 as stated fails: for a set of three stickers the append stage is
    handed the second and the third sticker, in this order, and starts the
    third one first. *)
Lemma C2_input_order_counterexample :
  let sticker (n : Z) := Typings.mkLineSticker n "u" "e" (Some "f") None in
  let stickers := [sticker 0%Z; sticker 1%Z; sticker 2%Z] in
  Batches.AddTask <$> drop 1 stickers
    = [Batches.AddTask (sticker 1%Z); Batches.AddTask (sticker 2%Z)] ∧
  started (run (λ _, Fulfilled) (Batches.addStickers_batch stickers) [])
    = [Batches.AddTask (sticker 2%Z); Batches.AddTask (sticker 1%Z)].
Proof. split; reflexivity. Qed.

(** C3, on the timeout path.  When the timeout callback fires on an
    unsettled batch, the batch rejects with the timeout error while the
    interval timer stays live; in the run below the batch has already
    rejected when the next tick starts the task that was still waiting. *)
Theorem C3_timeout_leaves_interval_timer_live :
  (∀ (Task : Type) (result : Task → Settlement) (t : Task)
     (tasks : list Task) (limit : nat) (interval : Z) (ms : positive),
     let s1 := step result
                 (concurrentDo (t :: tasks) limit interval (Some (Z.pos ms)))
                 Timeout in
     settled s1 = Some (Rejected timeoutError) ∧ timer s1 = Live) ∧
  (let result := λ _ : nat, Fulfilled in
   let s1 := run result (concurrentDo [1; 2] 1 300 (Some 20000%Z)) [Timeout] in
   let s2 := run result s1 [Settle 0; Tick] in
   settled s1 = Some (Rejected timeoutError) ∧ timer s1 = Live ∧
   started s1 = [2] ∧ taskToBeExcuted s1 = [1] ∧
   settled s2 = Some (Rejected timeoutError) ∧ timer s2 = Live ∧
   started s2 = [2; 1] ∧ in_flight s2 = [1]).
Proof.
  split; [|by vm_compute].
  intros Task result t tasks limit interval ms s1. subst s1.
  destruct (fillQueue_frame
              (mkState (replicate limit Empty) (t :: tasks) limit interval
                       NotStarted NotStarted None [] []))
    as (_ & _ & Hset & _).
  unfold concurrentDo, on_timeout, settle. simpl in *. by rewrite Hset.
Qed.

(** The sibling paths do release both timers: the callback of a rejected
    task leaves no timer live. *)
Lemma on_rejected_clears {Task : Type} (s : State (Task:=Task)) i t err :
  timer (on_rejected i t err s) ≠ Live ∧
  timeoutTimer (on_rejected i t err s) ≠ Live.
Proof.
  unfold on_rejected, settle. simpl.
  destruct (settled s); simpl; by destruct (timer s), (timeoutTimer s).
Qed.

End SchedulerRuns.

(** ** The retry loops *)

Section RetryFacts.
Import Typings Retry.
Context {A : Type} (catch_tail : list Effect) (op : nat → Attempt A).

(** The trace of the loop: every failed attempt is followed by the tail of
    the [catch] block, and the loop ends with the first successful attempt
    if there is one among the [n] attempts. *)
Lemma while_times_trace n : ∀ times error,
  fst (while_times catch_tail op n times error) =
    flat_map (λ k, Call k :: catch_tail)
             (seq times (leading_faults op n times)) ++
    (if leading_faults op n times <? n
     then [Call (times + leading_faults op n times)] else []).
Proof.
  induction n as [|n IH]; intros times error; [done|]. simpl.
  destruct (op times) as [v|raw] eqn:Hop; simpl.
  - by rewrite Nat.add_0_r.
  - specialize (IH (S times) (Some raw)).
    destruct (while_times catch_tail op n (S times) (Some raw)) as [tr ex].
    simpl in *. rewrite IH, <- app_assoc.
    change (S (leading_faults op n (S times)) <=? n)
      with (leading_faults op n (S times) <? n).
    by rewrite Nat.add_succ_r.
Qed.

(** How the loop is left. *)
Lemma while_times_exit n : ∀ times error,
  match snd (while_times catch_tail op n times error) with
  | Returned v =>
      leading_faults op n times < n ∧
      op (times + leading_faults op n times) = Ok v
  | Exhausted error' =>
      leading_faults op n times = n ∧
      (n = 0 → error' = error) ∧
      (0 < n → ∃ raw, error' = Some raw ∧ op (times + n - 1) = Fault raw)
  end.
Proof.
  induction n as [|n IH]; intros times error; simpl.
  { split_and!; [done..|lia]. }
  destruct (op times) as [v|raw] eqn:Hop; simpl.
  - rewrite Nat.add_0_r. split; [lia|done].
  - specialize (IH (S times) (Some raw)).
    destruct (while_times catch_tail op n (S times) (Some raw)) as [tr ex].
    simpl in *. destruct ex as [v|error'].
    + destruct IH as [Hlt Hv]. split; [lia|].
      by rewrite Nat.add_succ_r.
    + destruct IH as (Hn & H0 & Hpos). split_and!; [lia|lia|].
      intros _. destruct n as [|n'].
      * exists raw. rewrite H0 by done.
        replace (times + 1 - 1) with times by lia. done.
      * destruct Hpos as (raw' & -> & Hraw'); [lia|]. exists raw'.
        split; [done|]. rewrite <- Hraw'. f_equal. lia.
Qed.

Lemma leading_faults_all n : ∀ times,
  (∀ k, times ≤ k < times + n → is_fault (op k) = true) →
  leading_faults op n times = n.
Proof.
  induction n as [|n IH]; intros times Hall; [done|]. simpl.
  rewrite Hall by lia. f_equal. apply IH. intros k Hk. apply Hall. lia.
Qed.

Lemma leading_faults_first n : ∀ times k v,
  k < n → (∀ j, times ≤ j < times + k → is_fault (op j) = true) →
  op (times + k) = Ok v →
  leading_faults op n times = k.
Proof.
  induction n as [|n IH]; intros times k v Hk Hbefore Hv; [lia|]. simpl.
  destruct k as [|k].
  - rewrite Nat.add_0_r in Hv. by rewrite Hv.
  - rewrite Hbefore by lia. f_equal. apply (IH _ _ v); [lia| |].
    + intros j Hj. apply Hbefore. lia.
    + rewrite <- Hv. f_equal. lia.
Qed.

Lemma calls_flat_map (ks : list nat) :
  calls catch_tail = 0 →
  calls (flat_map (λ k, Call k :: catch_tail) ks) = length ks.
Proof.
  intros Hct. unfold calls in *.
  induction ks as [|k ks IH]; [done|]. simpl.
  rewrite filter_app, length_app, Hct, IH. done.
Qed.

(** With budget [n], an operation that fails at each of its [n] attempts
    is invoked [n] times and the loop gives up; one that first succeeds at
    attempt [k] is invoked [k + 1] times and its value is returned. *)
Lemma while_times_budget n :
  calls catch_tail = 0 →
  ((∀ k, k < n → is_fault (op k) = true) →
   calls (fst (while_times catch_tail op n 0 None)) = n ∧
   ∃ error, snd (while_times catch_tail op n 0 None) = Exhausted error) ∧
  (∀ k v, k < n → (∀ j, j < k → is_fault (op j) = true) → op k = Ok v →
   calls (fst (while_times catch_tail op n 0 None)) = S k ∧
   snd (while_times catch_tail op n 0 None) = Returned v).
Proof.
  intros Hct.
  pose proof (while_times_trace n 0 None) as Htr.
  pose proof (while_times_exit n 0 None) as Hex.
  split.
  - intros Hall.
    assert (leading_faults op n 0 = n) as Hlf.
    { apply leading_faults_all. intros k Hk. apply Hall. lia. }
    rewrite Hlf in *. rewrite Nat.ltb_irrefl, app_nil_r in Htr.
    split; [by rewrite Htr, calls_flat_map, length_seq|].
    destruct (snd _) as [v|error]; [lia|by exists error].
  - intros k v Hk Hbefore Hv.
    assert (leading_faults op n 0 = k) as Hlf.
    { apply (leading_faults_first n 0 k v); [done| |done].
      intros j Hj. apply Hbefore. lia. }
    rewrite Hlf in *. simpl in *.
    assert ((k <? n) = true) as Hlt by (apply Nat.ltb_lt; lia).
    rewrite Hlt in Htr. split.
    + rewrite Htr. unfold calls. rewrite filter_app, length_app.
      fold (calls (flat_map (λ k, Call k :: catch_tail) (seq 0 k))).
      rewrite calls_flat_map, length_seq by done. simpl. lia.
    + destruct (snd _) as [v'|error]; [|lia].
      destruct Hex as [_ Hv']. congruence.
Qed.

End RetryFacts.

Section RetryRuns.
Import Typings Retry.

(** A download that fails twice and then succeeds: three invocations, no
    delay, the bytes are returned. *)
Example download_third_attempt :
  downloadSticker "https://line/1.png"
    (λ k, if k <? 2 then Fault "ECONNRESET" else Ok "png")
  = ([Call 0; Call 1; Call 2], inl "png").
Proof. reflexivity. Qed.

(** An upload that never succeeds: the last fault is logged and the
    [BotError] of the upload is thrown. *)
Example upload_exhausted :
  uploadSticker (mkLineSticker 1 "u" "e" None (Some "png"))
                (λ _, Fault "ETELEGRAM")
  = ([Call 0; Delay 1000; Call 1; Delay 1000; Call 2; Delay 1000;
      ConsoleLog "ETELEGRAM"],
     inr (BotError "上传贴纸时出错了")).
Proof. reflexivity. Qed.

Lemma calls_app_logs tr error :
  calls (tr ++ log_error error) = calls tr.
Proof.
  unfold calls. rewrite filter_app, length_app.
  assert (filter (λ e, is_call e = true) (log_error error) = []) as ->
    by by destruct error.
  simpl. lia.
Qed.

Lemma pacing_app_logs tr error :
  pacing (tr ++ log_error error) = pacing tr.
Proof.
  unfold pacing. rewrite filter_app.
  assert (filter (λ e, is_log e = false) (log_error error) = []) as ->
    by by destruct error.
  by rewrite app_nil_r.
Qed.

(** C5.  Each retry-wrapped operation — [downloadSticker] and
    [uploadSticker] with budget 3, [addSticker] with budget 5 — invokes a
    remote call that fails at every attempt exactly as many times as its
    budget and then throws its own [BotError], whose message names the
    operation and does not depend on the fault; when the call first
    succeeds at attempt [k] within the budget it is invoked [k + 1] times
    and the result is returned. *)
Theorem C5_retry_budget_and_domain_error
    (u : string) (sticker : LineSticker)
    (dl : nat → Attempt Buffer) (ul : nat → Attempt string)
    (ad : nat → Attempt unit) :
  ((∀ k, k < 3 → is_fault (dl k) = true) →
     calls (fst (downloadSticker u dl)) = 3 ∧
     snd (downloadSticker u dl) = inr (BotError "下载贴纸时出错了")) ∧
  ((∀ k, k < 3 → is_fault (ul k) = true) →
     calls (fst (uploadSticker sticker ul)) = 3 ∧
     snd (uploadSticker sticker ul) = inr (BotError "上传贴纸时出错了")) ∧
  ((∀ k, k < 5 → is_fault (ad k) = true) →
     calls (fst (addSticker ad)) = 5 ∧
     snd (addSticker ad) = inr (BotError "把贴纸们加进贴纸包时出错了")) ∧
  (∀ k v, k < 3 → (∀ j, j < k → is_fault (dl j) = true) → dl k = Ok v →
     calls (fst (downloadSticker u dl)) = S k ∧
     snd (downloadSticker u dl) = inl v) ∧
  (∀ k v, k < 3 → (∀ j, j < k → is_fault (ul j) = true) → ul k = Ok v →
     calls (fst (uploadSticker sticker ul)) = S k ∧
     snd (uploadSticker sticker ul)
     = inl (mkLineSticker (id sticker) (url sticker) (emojis sticker)
                          (Some v) (image sticker))) ∧
  (∀ k v, k < 5 → (∀ j, j < k → is_fault (ad j) = true) → ad k = Ok v →
     calls (fst (addSticker ad)) = S k ∧ snd (addSticker ad) = inl tt).
Proof.
  destruct (while_times_budget [] dl 3 eq_refl) as [Hdl_all Hdl_first].
  destruct (while_times_budget [Delay 1000] ul 3 eq_refl)
    as [Hul_all Hul_first].
  destruct (while_times_budget [Delay 1000] ad 5 eq_refl)
    as [Had_all Had_first].
  unfold downloadSticker, uploadSticker, addSticker.
  split_and!.
  - intros Hall. destruct (Hdl_all Hall) as [Hc [error He]].
    destruct (while_times [] dl 3 0 None) as [tr ex]. simpl in *. subst ex.
    simpl. split; [|done].
    rewrite app_assoc. unfold calls in *. rewrite filter_app, length_app.
    fold (calls (tr ++ log_error error)). rewrite calls_app_logs.
    unfold calls. simpl. lia.
  - intros Hall. destruct (Hul_all Hall) as [Hc [error He]].
    destruct (while_times [Delay 1000] ul 3 0 None) as [tr ex].
    simpl in *. subst ex. simpl. split; [|done].
    by rewrite calls_app_logs.
  - intros Hall. destruct (Had_all Hall) as [Hc [error He]].
    destruct (while_times [Delay 1000] ad 5 0 None) as [tr ex].
    simpl in *. subst ex. simpl. split; [|done].
    by rewrite calls_app_logs.
  - intros k v Hk Hb Hv. destruct (Hdl_first k v Hk Hb Hv) as [Hc He].
    destruct (while_times [] dl 3 0 None) as [tr ex]. simpl in *. by subst ex.
  - intros k v Hk Hb Hv. destruct (Hul_first k v Hk Hb Hv) as [Hc He].
    destruct (while_times [Delay 1000] ul 3 0 None) as [tr ex].
    simpl in *. by subst ex.
  - intros k v Hk Hb Hv. destruct (Had_first k v Hk Hb Hv) as [Hc He].
    destruct (while_times [Delay 1000] ad 5 0 None) as [tr ex].
    simpl in *. by subst ex.
Qed.

Lemma C5_retry_budget_and_domain_error_witness :
  (calls (fst (addSticker (λ _, Fault "ETELEGRAM"))) = 5 ∧
   snd (addSticker (λ _, Fault "ETELEGRAM"))
   = inr (BotError "把贴纸们加进贴纸包时出错了")) ∧
  (calls (fst (downloadSticker "u"
                 (λ k, if k <? 2 then Fault "ECONNRESET" else Ok "png"))) = 3 ∧
   snd (downloadSticker "u"
          (λ k, if k <? 2 then Fault "ECONNRESET" else Ok "png")) = inl "png").
Proof.
  pose (sticker := mkLineSticker 1 "u" "e" None None).
  pose (dl := λ k, if k <? 2 then Fault "ECONNRESET" else @Ok Buffer "png").
  pose (ul := λ _ : nat, @Fault string "ETELEGRAM").
  pose (ad := λ _ : nat, @Fault unit "ETELEGRAM").
  destruct (C5_retry_budget_and_domain_error "u" sticker dl ul ad)
    as (_ & _ & Had & Hdl & _ & _).
  split.
  - apply Had. intros k _. reflexivity.
  - apply (Hdl 2 "png").
    + lia.
    + intros [|[|j]] Hj; [reflexivity|reflexivity|lia].
    + reflexivity.
Defined.

(** C6 as stated fails: when every attempt of [uploadSticker] fails, a
    delay follows the third and final attempt, before the error is
    thrown. *)
Lemma C6_delay_after_last_attempt_counterexample :
  let run := uploadSticker (mkLineSticker 1 "u" "e" None None)
                           (λ _, Fault "ETELEGRAM") in
  pacing (fst run)
    = [Call 0; Delay 1000; Call 1; Delay 1000; Call 2; Delay 1000] ∧
  snd run = inr (BotError "上传贴纸时出错了") ∧
  delays_only_between (fst run) = false.
Proof. split_and!; reflexivity. Qed.

(** C6, amended.  In [uploadSticker] and [addSticker], which are
    configured with a delay of 1000 ms, exactly one delay follows every
    failed attempt, the last failing one included; there is no delay before
    the first attempt and none after a successful attempt, which ends the
    loop. *)
Theorem C6_delay_follows_every_failed_attempt
    (sticker : LineSticker) (ul : nat → Attempt string)
    (ad : nat → Attempt unit) :
  let paced (f n : nat) :=
    flat_map (λ k, [Call k; Delay 1000]) (seq 0 f) ++
    (if f <? n then [Call f] else []) in
  pacing (fst (uploadSticker sticker ul)) = paced (leading_faults ul 3 0) 3 ∧
  pacing (fst (addSticker ad)) = paced (leading_faults ad 5 0) 5.
Proof.
  assert (∀ (f n : nat),
    pacing (flat_map (λ k, [Call k; Delay 1000]) (seq 0 f) ++
            (if f <? n then [Call f] else []))
    = flat_map (λ k, [Call k; Delay 1000]) (seq 0 f) ++
      (if f <? n then [Call f] else [])) as Hpure.
  { intros f n. unfold pacing. rewrite filter_app.
    f_equal; [|by destruct (f <? n)].
    induction (seq 0 f) as [|k ks IH]; [done|]. simpl.
    rewrite !filter_cons_True by done. by rewrite IH. }
  intros paced. subst paced. simpl. split.
  - pose proof (while_times_trace [Delay 1000] ul 3 0 None) as Htr.
    unfold uploadSticker.
    destruct (while_times [Delay 1000] ul 3 0 None) as [tr [v|error]];
      simpl in *; rewrite ?pacing_app_logs; subst tr; apply Hpure.
  - pose proof (while_times_trace [Delay 1000] ad 5 0 None) as Htr.
    unfold addSticker.
    destruct (while_times [Delay 1000] ad 5 0 None) as [tr [v|error]];
      simpl in *; rewrite ?pacing_app_logs; subst tr; apply Hpure.
Qed.

End RetryRuns.

(** ** The partition by the cache *)

Section PartitionFacts.
Import Typings Partition.
Implicit Types (ids : gmap Z string) (stickers : list LineSticker).

(** Three stickers, the cache knows the first and the second: only the
    third needs an upload. *)
Example partition_three_stickers :
  let ids : gmap Z string := {[1%Z := "file-1"; 2%Z := "file-2"]} in
  let sticker (n : Z) := mkLineSticker n "u" "e" None None in
  let sp := partitionStickers ids [sticker 1%Z; sticker 2%Z; sticker 3%Z] in
  (id <$> stickersAlreadyUploaded sp) = [1%Z; 2%Z] ∧
  (fileId <$> stickersAlreadyUploaded sp) = [Some "file-1"; Some "file-2"] ∧
  stickersToBeUploaded sp = [sticker 3%Z].
Proof. by vm_compute. Qed.

Lemma classify_fold ids stickers : ∀ acc,
  fold_left (classify ids) stickers acc =
  mkSplit (visited acc ++ (settled_sticker ids <$> stickers))
          (stickersAlreadyUploaded acc ++
             (assign ids <$> filter (cached ids) stickers))
          (stickersToBeUploaded acc ++
             filter (λ st, ¬ cached ids st) stickers).
Proof.
  induction stickers as [|st stickers IH]; intros acc; simpl.
  { destruct acc. by rewrite !app_nil_r. }
  rewrite IH. unfold classify, settled_sticker at 2.
  destruct (decide (cached ids st)) as [Hc|Hc].
  - rewrite filter_cons_True, filter_cons_False by tauto.
    unfold cached in Hc. rewrite Hc. simpl. by rewrite <- !app_assoc.
  - rewrite filter_cons_False, filter_cons_True by tauto.
    unfold cached in Hc. apply not_true_is_false in Hc. rewrite Hc. simpl.
    by rewrite <- !app_assoc.
Qed.

Lemma cached_iff ids st :
  cached ids st ↔ ∃ f, ids !! id st = Some f ∧ f ≠ "".
Proof.
  unfold cached, truthy. destruct (ids !! id st) as [f|]; split.
  - intros Hf. exists f. split; [done|]. intros ->. done.
  - intros (f' & [= <-] & Hne). destruct (String.eqb_spec f ""); done.
  - done.
  - by intros (f' & ? & _).
Qed.

(** C8, amended.  The loop puts every sticker of the set into exactly one
    of the two arrays: into [stickersAlreadyUploaded], with its [fileId]
    set to the cached value, iff the cache holds a non-empty file id for
    its [id], and into [stickersToBeUploaded] otherwise; both arrays keep
    the order of the set. *)
Theorem C8_partition_by_cache ids stickers :
  let sp := partitionStickers ids stickers in
  stickersAlreadyUploaded sp = assign ids <$> filter (cached ids) stickers ∧
  stickersToBeUploaded sp = filter (λ st, ¬ cached ids st) stickers ∧
  visited sp = settled_sticker ids <$> stickers ∧
  (∀ st, cached ids st ↔ ∃ f, ids !! id st = Some f ∧ f ≠ "") ∧
  (∀ st, st ∈ stickersAlreadyUploaded sp →
         ∃ f, fileId st = Some f ∧ ids !! id st = Some f ∧ f ≠ "") ∧
  length (stickersAlreadyUploaded sp) + length (stickersToBeUploaded sp)
    = length stickers ∧
  stickersToBeUploaded sp `sublist_of` stickers ∧
  (id <$> stickersAlreadyUploaded sp) `sublist_of` (id <$> stickers).
Proof.
  intros sp. subst sp. unfold partitionStickers. rewrite classify_fold.
  simpl. split_and!; try done.
  - apply cached_iff.
  - intros st (st0 & -> & Hin)%list_elem_of_fmap.
    apply list_elem_of_filter in Hin as [Hc _].
    apply cached_iff in Hc as (f & Hf & Hne). exists f. by simpl.
  - rewrite length_fmap.
    induction stickers as [|st stickers IH]; [done|].
    destruct (decide (cached ids st)).
    + rewrite filter_cons_True, filter_cons_False by tauto. simpl. lia.
    + rewrite filter_cons_False, filter_cons_True by tauto. simpl. lia.
  - apply sublist_filter.
  - rewrite <- list_fmap_compose.
    assert (id ∘ assign ids = id) as -> by done.
    apply fmap_sublist, sublist_filter.
Qed.

(** C8 as stated fails: a sticker whose cache entry is the empty string
    has an entry in the cache and still goes to [stickersToBeUploaded]. *)
Lemma C8_empty_entry_counterexample :
  let ids : gmap Z string := {[7%Z := ""]} in
  let sticker := mkLineSticker 7 "u" "e" None None in
  ids !! id sticker = Some "" ∧
  stickersAlreadyUploaded (partitionStickers ids [sticker]) = [] ∧
  stickersToBeUploaded (partitionStickers ids [sticker]) = [sticker].
Proof. split_and!; by vm_compute. Qed.

End PartitionFacts.

(** ** The validator and the document handler *)

Section PipelineFacts.
Import Validator Pipeline.

(** The validator on a well-formed set, on a set with a sticker that lacks
    its [url], on a document that is not an object ([in] throws) and on a
    set whose [stickers] hold a number ([in] throws inside [every]). *)
Example validator_cases :
  isLineStickerSet (set_document [line_sticker 1; line_sticker 2]) = Some true ∧
  isLineStickerSet (set_document [JObject [("id", JNumber 1)]]) = Some false ∧
  isLineStickerSet (JString "stickers") = None ∧
  isLineStickerSet (set_document [JNumber 1]) = None ∧
  isLineStickerSet (JObject [("id", JNumber 1)]) = Some false.
Proof. by vm_compute. Qed.

(** C7, at the failing input.  [isLineStickerSet] accepts a document
    whose [stickers] array is empty; with every collaborator succeeding,
    the run of the handler on it goes through the download, normalize,
    upload and commit stages and then throws a [TypeError] in
    [createStickerSet], before [createNewStickerSet] is called. *)
Theorem C7_validator_accepts_empty_set (userId : Z) :
  let doc := set_document [] in
  let r := handler (smooth (λ _, true) doc) userId (start ∅) in
  isLineStickerSet doc = Some true ∧
  stickers_of doc = [] ∧
  fst r = Failed (OtherError
                    "TypeError: Cannot read property 'fileId' of undefined") ∧
  stages (snd r) = [GetDocument; GetImageIds; DownloadBatch; Normalize;
                    UploadBatch; CommitImageIds; Delay 1000].
Proof. by vm_compute. Qed.

(** A document with one sticker goes through. *)
Example handler_one_sticker :
  let r := handler (smooth (λ _, true) (set_document [line_sticker 7])) 5
                   (start ∅) in
  fst r = Completed ∧ processingChat (snd r) !! 5%Z = Some false ∧
  stages (snd r) = [GetDocument; GetImageIds; DownloadBatch; Normalize;
                    UploadBatch; CommitImageIds; Delay 1000;
                    CreateNewStickerSet; Delay 8000; AddBatch] ∧
  releases (snd r) = 1 ∧ replies (snd r) = 10.
Proof. by vm_compute. Qed.

(** C4, at the failing input.  A document that arrives for a user whose
    flag is set is rejected with the [BotError] of the guard, and the
    [catch] block then clears the flag although the run that set it has not
    ended: the flags are changed, the rejected run releases a flag it never
    acquired, and the next document of the same user is admitted.  On the
    success path a fault of the last [log] releases the flag a second
    time. *)
Theorem C4_rejected_attempt_clears_flag
    (w w' : World) (userId : Z) (flags : gmap Z bool) :
  let busy_flags := <[userId := true]> flags in
  let r := handler w userId (start busy_flags) in
  fst r = Failed (BotError "我已经在吭哧吭哧地工作了，请等我把工作先做完！") ∧
  processingChat (snd r) = <[userId := false]> flags ∧
  processingChat (snd r) ≠ busy_flags ∧
  releases (snd r) = 1 ∧
  head (steps (snd r)) = Some (SetFlag false) ∧
  head (steps (snd (handler w' userId (start (processingChat (snd r))))))
    = Some (SetFlag true) ∧
  releases (snd (handler (smooth (λ k, negb (k =? 9))
                                 (set_document [line_sticker 7]))
                         userId (start ∅))) = 2.
Proof.
  intros busy_flags r.
  assert (busy busy_flags userId = true) as Hbusy.
  { unfold busy, busy_flags. apply bool_decide_eq_true_2, lookup_insert_eq. }
  assert (busy (<[userId := false]> flags) userId = false) as Hfree.
  { unfold busy. apply bool_decide_eq_false_2. by rewrite lookup_insert_eq. }
  assert (processingChat (snd r) = <[userId := false]> flags) as Hflags.
  { subst r. run_handler. rewrite Hbusy. simpl.
    destruct (reply w 0); simpl; apply insert_insert_eq. }
  split_and!.
  - subst r. run_handler. by rewrite Hbusy.
  - done.
  - rewrite Hflags. intros Heq.
    apply (f_equal (λ m, m !! userId)) in Heq.
    unfold busy_flags in Heq. by rewrite !lookup_insert_eq in Heq.
  - subst r. unfold releases. run_handler. rewrite Hbusy. simpl.
    by destruct (reply w 0).
  - subst r. run_handler. rewrite Hbusy. simpl. by destruct (reply w 0).
  - rewrite Hflags. run_handler. rewrite Hfree. simpl.
    repeat world_case w'; done.
  - by vm_compute.
Qed.

(** C9 as stated fails: with the same collaborators, the run in which
    every notification is acknowledged completes, and the run in which the
    second notification faults ends in [Failed] after two stages. *)
Lemma C9_notify_fault_counterexample :
  let doc := set_document [line_sticker 7] in
  let w := smooth (λ _, true) doc in
  let w' := smooth (λ k, negb (k =? 1)) doc in
  same_collaborators w w' ∧
  fst (handler w 5 (start ∅)) = Completed ∧
  fst (handler w' 5 (start ∅)) = Failed (OtherError "ctx.reply failed") ∧
  stages (snd (handler w 5 (start ∅)))
    = [GetDocument; GetImageIds; DownloadBatch; Normalize; UploadBatch;
       CommitImageIds; Delay 1000; CreateNewStickerSet; Delay 8000;
       AddBatch] ∧
  stages (snd (handler w' 5 (start ∅))) = [GetDocument; GetImageIds].
Proof. split_and!; [by repeat split|by vm_compute..]. Qed.

(** C9, amended.  A fault of a notification is fatal to the run: a run
    completes only if every call of [ctx.reply] it makes is acknowledged;
    when a call faults the run ends in the [catch] block with the flag of
    the user cleared, and no pipeline stage is executed after the first
    call that faults. *)
Theorem C9_notify_fault_is_fatal (w : World) (userId : Z)
    (flags : gmap Z bool) :
  let r := handler w userId (start flags) in
  (fst r = Completed → notify_faulted (snd r) = false) ∧
  (notify_faulted (snd r) = true →
     ∃ err, fst r = Failed err ∧
            processingChat (snd r) !! userId = Some false) ∧
  filter (λ s, is_stage s = true) (after_fault (steps (snd r))) = [].
Proof.
  intros r. subst r. unfold notify_faulted. run_handler.
  destruct (busy flags userId); simpl;
    repeat world_case w;
    (split_and!; [done| |done]);
    try done; intros _; eexists; (split; [done|]); apply lookup_insert_eq.
Qed.

End PipelineFacts.

(** ** The scheduler, whatever its tasks do *)

Section SchedulerLawsFacts.
Import Scheduler SchedulerLaws.
Context {Task : Type} (result : Task → Settlement).
Implicit Types (s : State (Task:=Task)) (tasks : list Task).

Lemma settle_settled r s :
  settled (settle r s) = match settled s with Some r' => Some r' | None => Some r end.
Proof. unfold settle. by destruct (settled s) eqn:Hs; simpl; rewrite ?Hs. Qed.

Lemma settle_frame r s :
  queue (settle r s) = queue s ∧ taskToBeExcuted (settle r s) = taskToBeExcuted s ∧
  timer (settle r s) = timer s ∧ timeoutTimer (settle r s) = timeoutTimer s ∧
  started (settle r s) = started s ∧ finished (settle r s) = finished s.
Proof. unfold settle. by destruct (settled s). Qed.

Lemma fillQueue_no_stale s :
  length (queue s) = pLimit s →
  Forall (λ sl, sl ≠ Stale) (queue (fillQueue s)) →
  Forall (λ sl, sl ≠ Stale) (queue s).
Proof.
  intros Hlen.
  enough (length (queue (fillQueue s)) = pLimit (fillQueue s) ∧
          (Forall (λ sl, sl ≠ Stale) (queue (fillQueue s)) →
           Forall (λ sl, sl ≠ Stale) (queue s))) by tauto.
  apply (fillQueue_ind (λ s', length (queue s') = pLimit s' ∧
    (Forall (λ sl, sl ≠ Stale) (queue s') →
     Forall (λ sl, sl ≠ Stale) (queue s)))); [|done].
  intros s' i Hi [Hlen' Hback].
  destruct (fill_slot_cases s' i Hi Hlen') as [->|(t & rest & Hq & _ & ->)];
    [done|]. simpl. split; [by rewrite length_insert|].
  intros Hns. apply Hback. apply Forall_lookup. intros j sl Hj.
  destruct (decide (i = j)) as [->|Hne]; [congruence|].
  apply (Forall_lookup_1 _ _ j sl Hns). by rewrite list_lookup_insert_ne.
Qed.

Lemma settlement_inv_step timeout tasks s e :
  inv tasks s → settlement_inv result timeout s →
  settlement_inv result timeout (step result s e).
Proof.
  intros Hinv Hsi. pose proof Hsi as [Hres Hclean Hrej Harm Hun].
  pose proof Hinv as [Hlen _ _].
  destruct e as [|i|]; simpl.
  - assert (timer s = Live ∨ timer s ≠ Live) as [Htm|Htm]
      by (destruct (timer s); [right|left|right]; done).
    2: { by destruct (timer s). }
    rewrite Htm.
    destruct (fillQueue_frame s) as (Ht & Hto & Hs & Hf & _).
    apply mkSettlementInv; rewrite ?Ht, ?Hto, ?Hs, ?Hf.
    + intros Hful. destruct (Hres Hful) as (_ & _ & ? & _). congruence.
    + intros Hns. apply Hclean. by apply fillQueue_no_stale.
    + done.
    + done.
    + done.
  - destruct (queue s !! i) as [[|t|]|] eqn:Hi; try done.
    assert (settled s ≠ Some Fulfilled) as Hnot.
    { intros Hful. destruct (Hres Hful) as (_ & Hemp & _).
      by pose proof (Forall_lookup_1 _ _ _ _ Hemp Hi). }
    destruct (result t) as [|err] eqn:Hrt.
    + pose proof (inv_settled_slot tasks s i t Empty Hinv Hi eq_refl) as Hinv1.
      unfold on_fulfilled.
      set (s1 := mkState (<[i:=Empty]> (queue s)) _ _ _ _ _ _ _ _) in *.
      assert (Forall (λ sl, sl ≠ Stale) (queue s1) →
              Forall (λ t, result t = Fulfilled) (finished s1)) as Hclean1.
      { simpl. intros Hns. apply Forall_app. split; [|by apply Forall_singleton].
        apply Hclean. apply Forall_lookup. intros j sl Hj.
        destruct (decide (i = j)) as [->|Hne]; [congruence|].
        apply (Forall_lookup_1 _ _ j sl Hns). by rewrite list_lookup_insert_ne. }
      assert (∀ err, settled s = Some (Rejected err) →
              err = timeoutError ∨
              ∃ t', t' ∈ finished s1 ∧ result t' = Rejected err) as Hrej1.
      { intros err Herr. destruct (Hrej err Herr) as [?|(t' & Hin & ?)];
          [by left|right]. exists t'. split; [|done]. simpl.
        apply elem_of_app. by left. }
      destruct (bool_decide (length (taskToBeExcuted s1) = 0)) eqn:Hnil;
        [destruct (isQueueEmpty s1) eqn:Hemp|]; simpl.
      * apply bool_decide_eq_true_1 in Hnil.
        apply isQueueEmpty_spec in Hemp; [|by destruct Hinv1].
        destruct (settle_frame Fulfilled (cleanup s1))
          as (Hq & Hr & Ht & Hto & _ & Hf).
        pose proof (settle_settled Fulfilled (cleanup s1)) as Hset.
        simpl in Hset.
        apply mkSettlementInv; rewrite ?Hq, ?Hr, ?Ht, ?Hto, ?Hf, ?Hset; simpl.
        -- intros _.
           split_and!; first [done | by destruct (taskToBeExcuted s)
                             | by destruct (timer s)
                             | by destruct (timeoutTimer s)].
        -- exact Hclean1.
        -- intros err Herr. apply Hrej1. by destruct (settled s).
        -- by destruct (settled s).
        -- intros Hf'. by rewrite (Hun Hf').
      * apply mkSettlementInv; simpl; try done; intros Hful; by destruct Hnot.
      * apply mkSettlementInv; simpl; try done; intros Hful; by destruct Hnot.
    + unfold on_rejected.
      set (s1 := mkState (<[i:=Stale]> (queue s)) _ _ _ _ _ _ _ _) in *.
      destruct (settle_frame (Rejected err) (cleanup s1))
        as (Hq & Hr & Ht & Hto & _ & Hf).
      pose proof (settle_settled (Rejected err) (cleanup s1)) as Hset.
      simpl in Hset.
      apply mkSettlementInv; rewrite ?Hq, ?Hr, ?Ht, ?Hto, ?Hf, ?Hset; simpl.
      * intros Hful.
        destruct (settled s) as [[|]|]; first [done | by destruct Hnot].
      * intros Hns. exfalso.
        assert (i < length (queue s)) as Hlt by by eapply lookup_lt_Some.
        pose proof (Forall_lookup_1 _ _ i Stale Hns) as Hbad.
        rewrite list_lookup_insert_eq in Hbad by done. by apply Hbad.
      * intros err' Herr'. destruct (settled s) as [[|err0]|] eqn:Hs0.
        -- done.
        -- destruct (Hrej err0 eq_refl) as [?|(t' & Hin & ?)];
             simplify_eq; [by left|right].
           exists t'. split; [|done]. apply elem_of_app. by left.
        -- simplify_eq. right. exists t. split; [|done].
           apply elem_of_app. right. by apply list_elem_of_singleton.
      * by destruct (settled s).
      * intros Hf'. by rewrite (Hun Hf').
  - destruct (timeoutTimer s) eqn:Hto; try done.
    unfold on_timeout.
    set (s1 := mkState (queue s) _ _ _ _ _ _ _ _) in *.
    destruct (settle_frame (Rejected timeoutError) s1)
      as (Hq & Hr & Ht & Hto' & _ & Hf).
    pose proof (settle_settled (Rejected timeoutError) s1) as Hset.
    simpl in Hset.
    apply mkSettlementInv; rewrite ?Hq, ?Hr, ?Ht, ?Hto', ?Hf, ?Hset; simpl.
    + intros Hful. destruct (settled s) as [[|]|] eqn:Hs0; try done.
      destruct (Hres eq_refl) as (_ & _ & _ & ?). done.
    + done.
    + intros err Herr. destruct (settled s) as [[|err0]|] eqn:Hs0.
      * done.
      * by apply Hrej.
      * simplify_eq. by left.
    + by destruct (settled s).
    + intros Hf'. by specialize (Hun Hf').
Qed.

Lemma settlement_inv_init timeout tasks limit interval :
  settlement_inv result timeout (concurrentDo tasks limit interval timeout).
Proof.
  unfold concurrentDo. destruct tasks as [|t tasks'].
  - apply mkSettlementInv; simpl; try done.
    intros _. split_and!; [done|by apply Forall_replicate|done..].
  - set (s00 := mkState (replicate limit Empty) _ _ _ _ _ _ _ _).
    destruct (fillQueue_frame s00) as (_ & _ & Hs & Hf & _).
    apply mkSettlementInv; simpl; rewrite ?Hs, ?Hf; try done.
    intros ->. done.
Qed.

Lemma settlement_inv_run timeout tasks es : ∀ s,
  inv tasks s → settlement_inv result timeout s →
  settlement_inv result timeout (run result s es).
Proof.
  induction es as [|e es IH]; intros s Hinv Hsi; [done|].
  simpl. apply IH; [by apply step_inv|by apply (settlement_inv_step _ tasks)].
Qed.

Lemma reachable_settlement_inv tasks limit interval timeout es :
  settlement_inv result timeout
    (run result (concurrentDo tasks limit interval timeout) es).
Proof.
  apply (settlement_inv_run timeout tasks);
    [apply concurrentDo_inv|apply settlement_inv_init].
Qed.

Lemma run_snoc s es e :
  run result s (es ++ [e]) = step result (run result s es) e.
Proof. unfold run. by rewrite fold_left_app. Qed.

Lemma run_app s es es' :
  run result s (es ++ es') = run result (run result s es) es'.
Proof. unfold run. by rewrite fold_left_app. Qed.

(** A settled promise stays as it is. *)
Lemma step_settled_final s e r :
  settled s = Some r → settled (step result s e) = Some r.
Proof.
  intros Hs. destruct e as [|i|]; simpl.
  - destruct (timer s); [done| |done].
    destruct (fillQueue_frame s) as (_ & _ & -> & _). done.
  - destruct (queue s !! i) as [[|t|]|]; try done.
    destruct (result t); unfold on_fulfilled, on_rejected;
      [destruct (_ && _)|]; rewrite ?settle_settled; simpl; by rewrite ?Hs.
  - destruct (timeoutTimer s); [done| |done].
    unfold on_timeout. rewrite settle_settled. simpl. by rewrite Hs.
Qed.

Lemma run_settled_final es : ∀ s r,
  settled s = Some r → settled (run result s es) = Some r.
Proof.
  induction es as [|e es IH]; intros s r Hs; [done|].
  simpl. by apply IH, step_settled_final.
Qed.

Lemma on_timeout_frame s :
  queue (on_timeout s) = queue s ∧
  taskToBeExcuted (on_timeout s) = taskToBeExcuted s ∧
  timer (on_timeout s) = timer s ∧
  started (on_timeout s) = started s ∧
  finished (on_timeout s) = finished s ∧
  settled (on_timeout s)
  = match settled s with
    | Some r => Some r
    | None => Some (Rejected timeoutError)
    end.
Proof.
  unfold on_timeout. rewrite settle_settled.
  match goal with
  | |- context [settle ?r ?x] =>
      destruct (settle_frame r x) as (-> & -> & -> & _ & -> & ->)
  end. done.
Qed.

(** Once the interval timer is not live, no callback starts a task or
    revives the timer. *)
Lemma step_timer_dead s e :
  timer s ≠ Live →
  timer (step result s e) ≠ Live ∧
  started (step result s e) = started s ∧
  taskToBeExcuted (step result s e) = taskToBeExcuted s.
Proof.
  intros Htm. destruct e as [|i|]; simpl.
  - destruct (timer s) eqn:E; simpl; rewrite ?E; first [done | by destruct Htm].
  - destruct (queue s !! i) as [[|t|]|]; try done.
    destruct (result t); unfold on_fulfilled, on_rejected;
      [destruct (_ && _)|];
      repeat match goal with
      | |- context [settle ?r ?x] =>
          destruct (settle_frame r x) as (_ & -> & -> & _ & -> & _)
      end; simpl; split_and!; first [done | by destruct (timer s)].
  - destruct (timeoutTimer s); [done| |done].
    by destruct (on_timeout_frame s) as (_ & -> & -> & -> & _).
Qed.

Lemma run_timer_dead es : ∀ s,
  timer s ≠ Live →
  started (run result s es) = started s ∧
  taskToBeExcuted (run result s es) = taskToBeExcuted s.
Proof.
  induction es as [|e es IH]; intros s Htm; [done|]. simpl.
  destruct (step_timer_dead s e Htm) as (Htm' & Hst & Hrem).
  destruct (IH _ Htm') as [-> ->]. done.
Qed.

(** Whatever the tasks do and whenever the timers fire, at most [limit]
    tasks are outstanding, the tasks invoked are the end of the input
    list, each invoked once, and every task invoked has settled or is
    outstanding. *)
Theorem batch_bounds_in_every_run tasks limit interval timeout es :
  let s := run result (concurrentDo tasks limit interval timeout) es in
  outstanding s ≤ limit ∧
  taskToBeExcuted s ++ reverse (started s) = tasks ∧
  started s ≡ₚ finished s ++ in_flight s ∧
  length (finished s) ≤ length (started s) ≤ length tasks.
Proof.
  intros s.
  pose proof (reachable_inv result tasks limit interval timeout es) as Hinv.
  pose proof (concurrentDo_pLimit result tasks limit interval timeout es) as Hp.
  fold s in Hinv, Hp. pose proof Hinv as [Hlen Hord Hfl].
  split_and!; [|done..| |].
  - rewrite <- Hp. by eapply inv_outstanding.
  - apply Permutation_length in Hfl. rewrite length_app in Hfl. lia.
  - rewrite <- Hord, length_app, length_reverse. lia.
Qed.

(** A batch resolves only when every task of the list has been invoked
    and has fulfilled: nothing waits, nothing is outstanding, no timer is
    live. *)
Theorem resolved_only_when_all_fulfilled tasks limit interval timeout es :
  let s := run result (concurrentDo tasks limit interval timeout) es in
  settled s = Some Fulfilled →
  started s = reverse tasks ∧ finished s ≡ₚ tasks ∧
  Forall (λ t, result t = Fulfilled) tasks ∧
  in_flight s = [] ∧ timer s ≠ Live ∧ timeoutTimer s ≠ Live.
Proof.
  intros s Hful.
  pose proof (reachable_inv result tasks limit interval timeout es)
    as [Hlen Hord Hfl].
  pose proof (reachable_settlement_inv tasks limit interval timeout es)
    as [Hres Hclean _ _ _].
  fold s in Hlen, Hord, Hfl, Hres, Hclean.
  destruct (Hres Hful) as (Hnil & Hemp & Htm & Hto).
  assert (in_flight s = []) as Hidle by by apply all_Empty_in_flight.
  rewrite Hnil in Hord. simpl in Hord. rewrite Hidle, app_nil_r in Hfl.
  assert (finished s ≡ₚ tasks) as Hperm
    by by rewrite <- Hfl, <- Hord, reverse_Permutation.
  split_and!; try done.
  - by rewrite <- Hord, reverse_involutive.
  - rewrite <- Hperm. apply Hclean.
    eapply Forall_impl; [exact Hemp|]. by intros sl ->.
Qed.

(** A batch rejects only with the timeout error or with the error of one
    of its tasks. *)
Theorem rejection_is_timeout_or_task_error
    tasks limit interval timeout es err :
  let s := run result (concurrentDo tasks limit interval timeout) es in
  settled s = Some (Rejected err) →
  err = timeoutError ∨ ∃ t, t ∈ tasks ∧ result t = Rejected err.
Proof.
  intros s Herr.
  pose proof (reachable_inv result tasks limit interval timeout es)
    as [_ Hord Hfl].
  pose proof (reachable_settlement_inv tasks limit interval timeout es)
    as [_ _ Hrej _ _].
  fold s in Hord, Hfl, Hrej.
  destruct (Hrej err Herr) as [?|(t & Hin & Ht)]; [by left|right].
  exists t. split; [|done]. rewrite <- Hord. apply elem_of_app. right.
  apply elem_of_reverse. rewrite Hfl. apply elem_of_app. by left.
Qed.

(** When a task rejects in an unsettled batch, the batch rejects with the
    error of that task and clears both timers; from then on no waiting
    task is started and the rejection stays, whatever happens next. *)
Theorem task_error_rejects_and_stops_admission s i t err es :
  settled s = None → queue s !! i = Some (Pending t) →
  result t = Rejected err →
  let s' := step result s (Settle i) in
  settled s' = Some (Rejected err) ∧
  timer s' ≠ Live ∧ timeoutTimer s' ≠ Live ∧
  started (run result s' es) = started s ∧
  taskToBeExcuted (run result s' es) = taskToBeExcuted s ∧
  settled (run result s' es) = Some (Rejected err).
Proof.
  intros Hset Hi Hrt s'.
  assert (s' = on_rejected i t err s) as Hs'.
  { subst s'. simpl. by rewrite Hi, Hrt. }
  destruct (on_rejected_clears s i t err) as [Htm Hto].
  assert (settled s' = Some (Rejected err)) as Hrej.
  { rewrite Hs'. unfold on_rejected. rewrite settle_settled. simpl.
    by rewrite Hset. }
  assert (started s' = started s ∧ taskToBeExcuted s' = taskToBeExcuted s)
    as [Hst Hrem].
  { rewrite Hs'. unfold on_rejected.
    by destruct (settle_frame (Rejected err) (cleanup
      (mkState (<[i:=Stale]> (queue s)) (taskToBeExcuted s) (pLimit s)
               (period s) (timer s) (timeoutTimer s) (settled s)
               (started s) (finished s ++ [t]))))
      as (_ & -> & _ & _ & -> & _). }
  rewrite <- Hs' in Htm, Hto.
  destruct (run_timer_dead es s' Htm) as [-> ->].
  split_and!; try done. by apply run_settled_final.
Qed.

(** When the timeout callback fires on an unsettled batch that was given
    a timeout, the batch rejects with the timeout error whatever its tasks
    have done; the tasks in flight stay in flight. *)
Theorem timeout_rejects_unsettled_batch tasks limit interval timeout es :
  let s := run result (concurrentDo tasks limit interval timeout) es in
  truthy_timeout timeout = true → settled s = None →
  settled (step result s Timeout) = Some (Rejected timeoutError) ∧
  in_flight (step result s Timeout) = in_flight s ∧
  started (step result s Timeout) = started s.
Proof.
  intros s Htruthy Hset.
  pose proof (reachable_settlement_inv tasks limit interval timeout es)
    as [_ _ _ Harm _].
  fold s in Harm. destruct (Harm Hset) as [_ Hto]. rewrite Htruthy in Hto.
  simpl. rewrite Hto. unfold in_flight.
  destruct (on_timeout_frame s) as (-> & _ & _ & -> & _ & ->).
  by rewrite Hset.
Qed.

(** A timeout of [0] or no timeout at all creates no timeout timer: the
    batch behaves as if the timeout callback never ran. *)
Theorem falsy_timeout_never_fires tasks limit interval timeout es es' :
  truthy_timeout timeout = false →
  let s0 := concurrentDo tasks limit interval timeout in
  timeoutTimer (run result s0 es) = NotStarted ∧
  run result s0 (es ++ Timeout :: es') = run result s0 (es ++ es').
Proof.
  intros Hfalsy s0.
  pose proof (reachable_settlement_inv tasks limit interval timeout es)
    as [_ _ _ _ Hun].
  fold s0 in Hun. specialize (Hun Hfalsy). split; [done|].
  rewrite !run_app. simpl. by rewrite Hun.
Qed.

(** With a limit of [0] and a task to run, no task is ever started: the
    batch never resolves, and it stays unsettled for ever unless a
    timeout was given. *)
Theorem limit_zero_starts_nothing t tasks interval timeout es :
  let s := run result (concurrentDo (t :: tasks) 0 interval timeout) es in
  started s = [] ∧ taskToBeExcuted s = t :: tasks ∧
  settled s ≠ Some Fulfilled ∧
  (truthy_timeout timeout = false → settled s = None).
Proof.
  intros s. subst s.
  induction es as [|e es IH] using rev_ind.
  { by split_and!. }
  rewrite run_snoc.
  pose proof (reachable_inv result (t :: tasks) 0 interval timeout es)
    as [Hlen _ _].
  pose proof (concurrentDo_pLimit result (t :: tasks) 0 interval timeout es)
    as Hp.
  pose proof (reachable_settlement_inv (t :: tasks) 0 interval timeout es)
    as [_ _ _ _ Hun].
  set (s := run result (concurrentDo (t :: tasks) 0 interval timeout) es) in *.
  destruct IH as (Hst & Hrem & Hnot & Hnone).
  assert (queue s = []) as Hq.
  { rewrite Hp in Hlen. by destruct (queue s). }
  assert (fillQueue s = s) as Hfill by (unfold fillQueue; by rewrite Hp).
  destruct e as [|i|]; simpl.
  - destruct (timer s); by rewrite ?Hfill.
  - by rewrite Hq.
  - destruct (timeoutTimer s) eqn:Hto; try done.
    destruct (on_timeout_frame s) as (_ & -> & _ & -> & _ & ->).
    split_and!; [done|done| |].
    + intros Hbad. destruct (settled s) as [[|]|]; [by destruct Hnot|done..].
    + intros Hf. by specialize (Hun Hf).
Qed.

End SchedulerLawsFacts.

Section SchedulerLawsRuns.
Import Scheduler.

Lemma resolved_only_when_all_fulfilled_witness :
  let result := λ _ : nat, Fulfilled in
  let s := run result (concurrentDo [1; 2; 3] 2 300 (Some 20000%Z))
               [Settle 0; Tick; Settle 1; Settle 0] in
  started s = reverse [1; 2; 3] ∧ finished s ≡ₚ [1; 2; 3] ∧
  Forall (λ t, result t = Fulfilled) [1; 2; 3] ∧
  in_flight s = [] ∧ timer s ≠ Live ∧ timeoutTimer s ≠ Live.
Proof.
  apply (resolved_only_when_all_fulfilled (λ _ : nat, Fulfilled) [1; 2; 3] 2
           300 (Some 20000%Z) [Settle 0; Tick; Settle 1; Settle 0]).
  reflexivity.
Defined.

Lemma rejection_is_timeout_or_task_error_witness :
  let result := λ t : nat,
    if decide (t = 2) then Rejected (OtherError "boom") else Fulfilled in
  OtherError "boom" = timeoutError ∨
  ∃ t, t ∈ [1; 2; 3] ∧ result t = Rejected (OtherError "boom").
Proof.
  apply (rejection_is_timeout_or_task_error
           (λ t : nat, if decide (t = 2) then Rejected (OtherError "boom")
                       else Fulfilled)
           [1; 2; 3] 2 300 (Some 20000%Z) [Settle 1] (OtherError "boom")).
  reflexivity.
Defined.

Lemma task_error_rejects_and_stops_admission_witness :
  let result := λ t : nat,
    if decide (t = 2) then Rejected (OtherError "boom") else Fulfilled in
  let s := concurrentDo [1; 2; 3] 2 300 (Some 20000%Z) in
  let s' := step result s (Settle 1) in
  let es := [Tick; Settle 0; Tick; Timeout] in
  settled s' = Some (Rejected (OtherError "boom")) ∧
  timer s' ≠ Live ∧ timeoutTimer s' ≠ Live ∧
  started (run result s' es) = started s ∧
  taskToBeExcuted (run result s' es) = taskToBeExcuted s ∧
  settled (run result s' es) = Some (Rejected (OtherError "boom")).
Proof.
  apply (task_error_rejects_and_stops_admission
           (λ t : nat, if decide (t = 2) then Rejected (OtherError "boom")
                       else Fulfilled)
           (concurrentDo [1; 2; 3] 2 300 (Some 20000%Z)) 1 2
           (OtherError "boom") [Tick; Settle 0; Tick; Timeout]);
    reflexivity.
Defined.

Lemma timeout_rejects_unsettled_batch_witness :
  let result := λ _ : nat, Fulfilled in
  let s := run result (concurrentDo [1; 2; 3] 2 300 (Some 20000%Z))
               [Settle 0; Tick] in
  settled (step result s Timeout) = Some (Rejected timeoutError) ∧
  in_flight (step result s Timeout) = in_flight s ∧
  started (step result s Timeout) = started s.
Proof.
  apply (timeout_rejects_unsettled_batch (λ _ : nat, Fulfilled) [1; 2; 3] 2
           300 (Some 20000%Z) [Settle 0; Tick]); reflexivity.
Defined.

Lemma falsy_timeout_never_fires_witness :
  let result := λ _ : nat, Fulfilled in
  let s0 := concurrentDo [1; 2] 1 300 (Some 0%Z) in
  timeoutTimer (run result s0 [Settle 0]) = NotStarted ∧
  run result s0 ([Settle 0] ++ Timeout :: [Tick; Settle 0])
  = run result s0 ([Settle 0] ++ [Tick; Settle 0]).
Proof.
  apply (falsy_timeout_never_fires (λ _ : nat, Fulfilled) [1; 2] 1 300
           (Some 0%Z) [Settle 0] [Tick; Settle 0]).
  reflexivity.
Defined.

End SchedulerLawsRuns.

(** ** The three batches of the handler *)

Section BatchesFacts.
Import Typings Scheduler Batches.
Variable result : StageTask → Settlement.

Lemma started_of_tasks (tasks : list StageTask) limit interval timeout es t :
  t ∈ started (run result (concurrentDo tasks limit interval timeout) es) →
  t ∈ tasks.
Proof.
  intros Ht.
  pose proof (reachable_inv result tasks limit interval timeout es)
    as [_ Hord _].
  rewrite <- Hord, elem_of_app, elem_of_reverse. by right.
Qed.

(** The download and upload batches never have more than five tasks
    outstanding and the batch that adds stickers never more than two,
    whatever the tasks do.  The first sticker of the set, which created
    the set, is never handed to the adding batch; for a set of one sticker
    that batch resolves inside the call, without a timer.  When the cache
    knows every sticker the download and upload batches do the same. *)
Theorem stage_batches_respect_their_limits
    (stickers : list LineSticker) (es : list Event) :
  outstanding (run result (downloadStickers_batch stickers) es) ≤ 5 ∧
  outstanding (run result (uploadStickers_batch stickers) es) ≤ 5 ∧
  outstanding (run result (addStickers_batch stickers) es) ≤ 2 ∧
  (∀ t, t ∈ started (run result (addStickers_batch stickers) es) →
     ∃ i st, t = AddTask st ∧ stickers !! S i = Some st) ∧
  (length stickers ≤ 1 →
     settled (addStickers_batch stickers) = Some Fulfilled ∧
     timer (addStickers_batch stickers) = NotStarted ∧
     started (run result (addStickers_batch stickers) es) = []) ∧
  settled (downloadStickers_batch []) = Some Fulfilled ∧
  settled (uploadStickers_batch []) = Some Fulfilled.
Proof.
  unfold downloadStickers_batch, uploadStickers_batch, addStickers_batch.
  split_and!; try done.
  - rewrite <- (concurrentDo_pLimit result (DownloadTask <$> stickers) 5 300
                  (Some 20000%Z) es) at 2.
    eapply inv_outstanding, reachable_inv.
  - rewrite <- (concurrentDo_pLimit result (UploadTask <$> stickers) 5 1800
                  (Some 60000%Z) es) at 2.
    eapply inv_outstanding, reachable_inv.
  - rewrite <- (concurrentDo_pLimit result (AddTask <$> drop 1 stickers) 2 1500
                  (Some 80000%Z) es) at 2.
    eapply inv_outstanding, reachable_inv.
  - intros t Ht%started_of_tasks.
    apply list_elem_of_fmap in Ht as (st & -> & Hst).
    apply list_elem_of_lookup in Hst as [i Hi].
    rewrite lookup_drop in Hi. by exists i, st.
  - intros Hlen.
    assert (drop 1 stickers = []) as ->.
    { destruct stickers as [|st [|st' rest]]; simpl in *; [done..|lia]. }
    split_and!; [done..|].
    pose proof (reachable_inv result (AddTask <$> []) 2 1500
                  (Some 80000%Z) es) as [_ Hord _].
    apply app_eq_nil in Hord as [_ Hrev].
    by rewrite <- (reverse_involutive (started _)), Hrev.
Qed.

End BatchesFacts.

(** ** The retry loops, read from their result *)

Section RetryLaws.
Import Typings Retry.

Lemma leading_faults_prefix {A : Type} (op : nat → Attempt A) n : ∀ times j,
  j < leading_faults op n times → is_fault (op (times + j)) = true.
Proof.
  induction n as [|n IH]; intros times j Hj; simpl in Hj; [lia|].
  destruct (is_fault (op times)) eqn:Hf; [|lia].
  destruct j as [|j]; [by rewrite Nat.add_0_r|].
  rewrite Nat.add_succ_r. apply (IH (S times) j). lia.
Qed.

(** How the loop was left tells what the remote call did: after a
    [return] the value is that of the first attempt that did not throw;
    after exhaustion every attempt threw. *)
Lemma while_times_sound {A : Type} (catch_tail : list Effect)
    (op : nat → Attempt A) n :
  calls catch_tail = 0 →
  let r := while_times catch_tail op n 0 None in
  (∀ v, snd r = Returned v →
     ∃ k, k < n ∧ op k = Ok v ∧ (∀ j, j < k → is_fault (op j) = true) ∧
          calls (fst r) = S k) ∧
  (∀ error, snd r = Exhausted error →
     (∀ k, k < n → is_fault (op k) = true) ∧ calls (fst r) = n ∧
     (0 < n → ∃ raw, error = Some raw ∧ op (n - 1) = Fault raw) ∧
     fst r = flat_map (λ k, Call k :: catch_tail) (seq 0 n)).
Proof.
  intros Hct r. subst r.
  pose proof (while_times_exit catch_tail op n 0 None) as Hex.
  pose proof (while_times_trace catch_tail op n 0 None) as Htr.
  destruct (while_times_budget catch_tail op n Hct) as [Hall Hfirst].
  split.
  - intros v Hv. rewrite Hv in Hex. destruct Hex as [Hlt Hop]. simpl in Hop.
    set (k := leading_faults op n 0) in *.
    assert (∀ j, j < k → is_fault (op j) = true) as Hpre.
    { intros j Hj. by apply (leading_faults_prefix op n 0 j). }
    exists k. split_and!; try done.
    by destruct (Hfirst k v Hlt Hpre Hop).
  - intros error He. rewrite He in Hex. destruct Hex as (Hn & _ & Hlast).
    assert (∀ k, k < n → is_fault (op k) = true) as Hfaults.
    { intros k Hk. apply (leading_faults_prefix op n 0 k). lia. }
    split_and!.
    + done.
    + by destruct (Hall Hfaults).
    + intros Hpos. destruct (Hlast Hpos) as (raw & -> & Hraw). by exists raw.
    + rewrite Htr, Hn, Nat.ltb_irrefl. by rewrite app_nil_r.
Qed.

(** Whatever the remote call does, a value returned by [downloadSticker],
    [uploadSticker] or [addSticker] is the result of the first attempt that
    did not throw, made within the budget, and nothing is invoked after it;
    an error is thrown only after every attempt of the budget has thrown,
    and it is the [BotError] of the operation. *)
Theorem retry_result_explains_attempts
    (u : string) (sticker : LineSticker)
    (dl : nat → Attempt Buffer) (ul : nat → Attempt string)
    (ad : nat → Attempt unit) :
  (∀ v, snd (downloadSticker u dl) = inl v →
     ∃ k, k < 3 ∧ dl k = Ok v ∧ (∀ j, j < k → is_fault (dl j) = true) ∧
          calls (fst (downloadSticker u dl)) = S k) ∧
  (∀ st, snd (uploadSticker sticker ul) = inl st →
     ∃ k v, k < 3 ∧ ul k = Ok v ∧ fileId st = Some v ∧ id st = id sticker ∧
            (∀ j, j < k → is_fault (ul j) = true) ∧
            calls (fst (uploadSticker sticker ul)) = S k) ∧
  (snd (addSticker ad) = inl tt →
     ∃ k, k < 5 ∧ ad k = Ok tt ∧ (∀ j, j < k → is_fault (ad j) = true) ∧
          calls (fst (addSticker ad)) = S k) ∧
  (∀ e, snd (downloadSticker u dl) = inr e →
     e = BotError "下载贴纸时出错了" ∧ (∀ k, k < 3 → is_fault (dl k) = true)) ∧
  (∀ e, snd (uploadSticker sticker ul) = inr e →
     e = BotError "上传贴纸时出错了" ∧ (∀ k, k < 3 → is_fault (ul k) = true)) ∧
  (∀ e, snd (addSticker ad) = inr e →
     e = BotError "把贴纸们加进贴纸包时出错了" ∧
     (∀ k, k < 5 → is_fault (ad k) = true)).
Proof.
  destruct (while_times_sound [] dl 3 eq_refl) as [Hdl_ok Hdl_ko].
  destruct (while_times_sound [Delay 1000] ul 3 eq_refl) as [Hul_ok Hul_ko].
  destruct (while_times_sound [Delay 1000] ad 5 eq_refl) as [Had_ok Had_ko].
  unfold downloadSticker, uploadSticker, addSticker.
  destruct (while_times [] dl 3 0 None) as [trd [vd|ed]];
  destruct (while_times [Delay 1000] ul 3 0 None) as [tru [vu|eu]];
  destruct (while_times [Delay 1000] ad 5 0 None) as [tra [va|ea]];
  simpl in *;
  (split_and!;
   [ intros v Hv; first [done | simplify_eq; by apply Hdl_ok]
   | intros st Hst; first [done
       | simplify_eq; destruct (Hul_ok _ eq_refl) as (k & ? & ? & ? & ?);
         by exists k, vu]
   | intros Hok; first [done
       | destruct va; destruct (Had_ok _ eq_refl) as (k & ? & ? & ? & ?);
         by exists k]
   | intros e He; first [done
       | simplify_eq; split; [done|]; by apply (Hdl_ko _ eq_refl)]
   | intros e He; first [done
       | simplify_eq; split; [done|]; by apply (Hul_ko _ eq_refl)]
   | intros e He; first [done
       | simplify_eq; split; [done|]; by apply (Had_ko _ eq_refl)] ]).
Qed.


End RetryLaws.

(** ** The validators, read as predicates *)

Section ValidatorLawsFacts.
Import Validator ValidatorLaws.

Lemma has_get (key : string) (fields : list (string * Json)) :
  has key (JObject fields) = Some (bool_decide (is_Some (get key (JObject fields)))).
Proof. done. Qed.

(** One [key in obj && typeof obj[key] === ...] pair on an object. *)
Lemma guard_number key fields (rest : option bool) :
  (has key (JObject fields) &&?
     Some (is_number (get key (JObject fields))) &&? rest) = Some true ↔
  (∃ n, get key (JObject fields) = Some (JNumber n)) ∧ rest = Some true.
Proof.
  rewrite has_get. destruct (get key (JObject fields)) as [[]|]; simpl;
    split; try done; try (by intros [[? ?] ?]); try (by intros [[? [=]] ?]).
  by eauto.
Qed.

Lemma guard_string key fields (rest : option bool) :
  (has key (JObject fields) &&?
     Some (is_string (get key (JObject fields))) &&? rest) = Some true ↔
  (∃ s, get key (JObject fields) = Some (JString s)) ∧ rest = Some true.
Proof.
  rewrite has_get. destruct (get key (JObject fields)) as [[]|]; simpl;
    split; try done; try (by intros [[? ?] ?]); try (by intros [[? [=]] ?]).
  by eauto.
Qed.

Lemma guard_array key fields (rest : option bool) :
  (has key (JObject fields) &&?
     Some (isArray (get key (JObject fields))) &&? rest) = Some true ↔
  (∃ items, get key (JObject fields) = Some (JArray items)) ∧ rest = Some true.
Proof.
  rewrite has_get. destruct (get key (JObject fields)) as [[]|]; simpl;
    split; try done; try (by intros [[? ?] ?]); try (by intros [[? [=]] ?]).
  by eauto.
Qed.

Lemma guard_string_last key fields :
  (has key (JObject fields) &&?
     Some (is_string (get key (JObject fields)))) = Some true ↔
  ∃ s, get key (JObject fields) = Some (JString s).
Proof.
  rewrite has_get. destruct (get key (JObject fields)) as [[]|]; simpl;
    split; try done; try (by intros [? ?]); try (by intros [? [=]]).
  by eauto.
Qed.

(** On an object a guard pair never throws by itself. *)
Lemma guard_none key fields (test : option Json → bool) (rest : option bool) :
  (has key (JObject fields) &&?
     Some (test (get key (JObject fields))) &&? rest) = None →
  rest = None.
Proof.
  rewrite has_get.
  destruct (bool_decide _); simpl; [|done]. by destruct (test _).
Qed.

Lemma guard_number_none key fields (rest : option bool) :
  (has key (JObject fields) &&?
     Some (is_number (get key (JObject fields))) &&? rest) = None →
  (∃ n, get key (JObject fields) = Some (JNumber n)) ∧ rest = None.
Proof.
  rewrite has_get. destruct (get key (JObject fields)) as [[]|]; simpl;
    try done. by eauto.
Qed.

Lemma guard_string_none key fields (rest : option bool) :
  (has key (JObject fields) &&?
     Some (is_string (get key (JObject fields))) &&? rest) = None →
  (∃ s, get key (JObject fields) = Some (JString s)) ∧ rest = None.
Proof.
  rewrite has_get. destruct (get key (JObject fields)) as [[]|]; simpl;
    try done. by eauto.
Qed.

Lemma guard_array_none key fields (rest : option bool) :
  (has key (JObject fields) &&?
     Some (isArray (get key (JObject fields))) &&? rest) = None →
  (∃ items, get key (JObject fields) = Some (JArray items)) ∧ rest = None.
Proof.
  rewrite has_get. destruct (get key (JObject fields)) as [[]|]; simpl;
    try done. by eauto.
Qed.

Lemma every_true_iff (f : Json → option bool) items :
  every f items = Some true ↔ Forall (λ x, f x = Some true) items.
Proof.
  induction items as [|x items IH]; simpl; [done|].
  rewrite Forall_cons. destruct (f x) as [[|]|]; [|split; [done|by intros [? ?]]..].
  rewrite IH. tauto.
Qed.

Lemma every_none (f : Json → option bool) items :
  every f items = None → ∃ x, x ∈ items ∧ f x = None.
Proof.
  induction items as [|x items IH]; simpl; [done|].
  destruct (f x) as [[|]|] eqn:Hx; [|done|].
  - intros (y & ? & ?)%IH. exists y. split; [by right|done].
  - intros _. exists x. split; [by left|done].
Qed.

Lemma isLineSticker_throws_iff (obj : Json) :
  isLineSticker obj = None ↔ primitive obj = true.
Proof.
  destruct obj as [| | | | |fields]; try done.
  unfold isLineSticker. split; [|done]. intros Hnone.
  apply (guard_none _ _ is_number) in Hnone.
  apply (guard_none _ _ is_string) in Hnone.
  rewrite has_get in Hnone. by destruct (bool_decide _).
Qed.

(** [isLineSticker] accepts exactly the objects whose [id] is a number and
    whose [url] and [emojis] are strings; other fields are not looked at.
    It throws exactly on the values that are neither an object nor an
    array, and answers [false] on every array. *)
Theorem isLineSticker_accepts_exactly (obj : Json) :
  (isLineSticker obj = Some true ↔
     ∃ fields n u e, obj = JObject fields ∧
       get "id" obj = Some (JNumber n) ∧ get "url" obj = Some (JString u) ∧
       get "emojis" obj = Some (JString e)) ∧
  (isLineSticker obj = None ↔ primitive obj = true) ∧
  (∀ items, isLineSticker (JArray items) = Some false).
Proof.
  split_and!; [| |done].
  - destruct obj as [| | | | |fields];
      try (split; [done|by intros (? & ? & ? & ? & ? & _)]).
    unfold isLineSticker.
    rewrite guard_number, guard_string, guard_string_last.
    split; [|by intros (?&?&?&?&?&?&?&?); eauto 10].
    intros ([n ?] & [u ?] & [e ?]). by exists fields, n, u, e.
  - apply isLineSticker_throws_iff.
Qed.

(** [isLineStickerSet] accepts exactly the objects whose [id] is a number,
    whose [name], [author], [authorUrl] and [mainImageUrl] are strings and
    whose [stickers] is an array of values that [isLineSticker] accepts,
    the empty array included.  It throws only on a document that is
    neither an object nor an array, or on one whose [stickers] array holds
    such a value; it does throw on every such document. *)
Theorem isLineStickerSet_accepts_exactly (obj : Json) :
  (isLineStickerSet obj = Some true ↔
     (∃ fields, obj = JObject fields) ∧ header_ok obj ∧
     Forall (λ x, isLineSticker x = Some true) (stickers_of obj)) ∧
  (isLineStickerSet obj = None →
     primitive obj = true ∨
     header_ok obj ∧ ∃ x, x ∈ stickers_of obj ∧ primitive x = true) ∧
  (primitive obj = true → isLineStickerSet obj = None).
Proof.
  split_and!.
  - destruct obj as [| | | | |fields];
      try (split; [done|by intros [[? ?] _]]).
    unfold isLineStickerSet, header_ok.
    rewrite guard_number, !guard_string, guard_array, every_true_iff.
    split; [|tauto]. intros (?&?&?&?&?&?&?). by eauto 10.
  - destruct obj as [| | | | |fields]; try (by left). intros Hnone. right.
    unfold isLineStickerSet in Hnone.
    apply guard_number_none in Hnone as [Hid Hnone].
    apply guard_string_none in Hnone as [Hname Hnone].
    apply guard_string_none in Hnone as [Hauthor Hnone].
    apply guard_string_none in Hnone as [Hurl Hnone].
    apply guard_string_none in Hnone as [Himage Hnone].
    apply guard_array_none in Hnone as [Hstickers Hnone].
    split; [done|].
    apply every_none in Hnone as (x & Hin & Hx). exists x. split; [done|].
    by apply isLineSticker_throws_iff.
  - by destruct obj.
Qed.

End ValidatorLawsFacts.

(** ** Every run of the handler *)

Section PipelineLawsFacts.
Import Validator Pipeline PipelineLaws.

(** Whatever the collaborators do, the stages a run executes are an
    initial part of the ten stages of the [try] block, in the order of the
    block: no stage is skipped, repeated or run out of order.  A run that
    completes has executed all ten, has sent ten messages and has released
    the flag of the user once. *)
Theorem handler_stages_follow_the_program (w : World) (userId : Z)
    (flags : gmap Z bool) :
  let r := handler w userId (start flags) in
  stages (snd r) `prefix_of` program ∧
  (fst r = Completed →
     stages (snd r) = program ∧ replies (snd r) = 10 ∧ releases (snd r) = 1 ∧
     busy flags userId = false).
Proof.
  intros r. subst r. unfold stages, releases, program. run_handler.
  destruct (busy flags userId); simpl;
    repeat world_case w;
    (split; [by eexists|done]).
Qed.



(** When every message to the user is acknowledged and the document is a
    sticker set with at least one sticker, the outcome of the run is
    decided by the collaborators alone: the run fails with the error of the
    first stage that rejects, passed on unchanged, and completes when none
    rejects. *)
Theorem first_rejection_decides_the_outcome (w : World) (userId : Z)
    (flags : gmap Z bool) (doc : Json) :
  (∀ k, reply w k = true) →
  busy flags userId = false →
  document w = inl doc →
  isLineStickerSet doc = Some true →
  stickers_of doc ≠ [] →
  let r := handler w userId (start flags) in
  fst r = match first_rejection (awaited w) with
          | Some err => Failed err
          | None => Completed
          end ∧
  notify_faulted (snd r) = false.
Proof.
  intros Hack Hfree Hdoc Hvalid Hsome r. subst r.
  unfold notify_faulted, awaited. run_handler.
  rewrite Hfree. simpl. rewrite !Hack. simpl. rewrite Hdoc. simpl.
  rewrite Hvalid. simpl.
  destruct (stickers_of doc) as [|first rest] eqn:Hstickers; [done|]. simpl.
  destruct (images w); simpl; rewrite ?Hack; simpl;
    [|by destruct err; simpl; rewrite ?Hack].
  destruct (downloads w); simpl; rewrite ?Hack; simpl;
    [|by destruct err; simpl; rewrite ?Hack].
  destruct (normalized w); simpl; rewrite ?Hack; simpl;
    [|by destruct err; simpl; rewrite ?Hack].
  destruct (uploads w); simpl; rewrite ?Hack; simpl;
    [|by destruct err; simpl; rewrite ?Hack].
  destruct (committed w); simpl; rewrite ?Hack; simpl;
    [|by destruct err; simpl; rewrite ?Hack].
  destruct (created w); simpl; rewrite ?Hack; simpl;
    [|by destruct err; simpl; rewrite ?Hack].
  destruct (added w); simpl; rewrite ?Hack; simpl;
    [|by destruct err; simpl; rewrite ?Hack].
  done.
Qed.


End PipelineLawsFacts.

Section PipelineLawsRuns.
Import Validator Pipeline PipelineLaws.

Lemma first_rejection_decides_the_outcome_witness :
  let w := mkWorld (λ _, true) (inl (set_document [line_sticker 7]))
                   Fulfilled "n_abc123_by_stickers_l2t2_bot" Fulfilled
                   Fulfilled (Rejected (BotError "上传贴纸时出错了"))
                   Fulfilled Fulfilled Fulfilled in
  let r := handler w 5 (start ∅) in
  fst r = Failed (BotError "上传贴纸时出错了") ∧
  notify_faulted (snd r) = false.
Proof.
  intros w.
  apply (first_rejection_decides_the_outcome w 5 ∅
           (set_document [line_sticker 7])); by vm_compute.
Defined.


End PipelineLawsRuns.

(** ** The cache across runs *)

Section CacheFacts.
Import Typings Partition Cache.
Implicit Types (images : gmap Z string) (stickers : list LineSticker).




Lemma batch_set_fold stickers : ∀ batch,
  fold_left batch_set stickers batch = batch ++ omap queued stickers.
Proof.
  induction stickers as [|st stickers IH]; intros batch; csimpl.
  { by rewrite app_nil_r. }
  rewrite IH. unfold batch_set, queued.
  destruct (fileId st) as [f|]; simpl; [|done].
  destruct (negb (String.eqb f "")); simpl; [|done].
  by rewrite <- app_assoc.
Qed.

Lemma queued_spec st k f :
  queued st = Some (k, f) ↔ id st = k ∧ fileId st = Some f ∧ f ≠ "".
Proof.
  unfold queued, truthy. destruct (fileId st) as [f'|]; simpl.
  - destruct (String.eqb_spec f' ""); simpl; split.
    + done.
    + intros (_ & [= ->] & ?). done.
    + by intros [= <- <-].
    + by intros (<- & [= <-] & _).
  - split; [done|]. by intros (_ & ? & _).
Qed.

Lemma truthy_spec (v : option string) :
  truthy v = true ↔ ∃ f, v = Some f ∧ f ≠ "".
Proof.
  unfold truthy. destruct v as [f|]; [|split; [done|by intros (? & ? & _)]].
  destruct (String.eqb_spec f ""); simpl; split; try done.
  - intros (f' & [= <-] & ?). done.
  - by exists f.
Qed.

(** After [commit], a document is as it was, or holds the last write queued
    under its name. *)
Lemma commit_lookup (batch : list (Z * string)) : ∀ images k,
  ((k ∉ fst <$> batch) ∧ commit batch images !! k = images !! k) ∨
  (∃ f, (k, f) ∈ batch ∧ commit batch images !! k = Some f).
Proof.
  induction batch as [|[k' f'] batch IH]; intros images k; simpl.
  { left. split; [apply not_elem_of_nil|done]. }
  destruct (IH (<[k' := f']> images) k) as [[Hnot Hsame]|(f & Hin & Hf)].
  - destruct (decide (k = k')) as [->|Hne].
    + right. exists f'. split; [by left|].
      unfold commit in *. simpl. by rewrite Hsame, lookup_insert_eq.
    + left. split.
      * rewrite not_elem_of_cons. done.
      * unfold commit in *. simpl. by rewrite Hsame, lookup_insert_ne.
  - right. exists f. split; [by right|done].
Qed.

Lemma addImageIds_lookup stickers images k :
  ((∀ st, st ∈ stickers → id st = k → truthy (fileId st) = false) ∧
   addImageIds stickers images !! k = images !! k) ∨
  (∃ st f, st ∈ stickers ∧ id st = k ∧ fileId st = Some f ∧ f ≠ "" ∧
           addImageIds stickers images !! k = Some f).
Proof.
  unfold addImageIds. rewrite batch_set_fold. simpl.
  destruct (commit_lookup (omap queued stickers) images k)
    as [[Hnot Hsame]|(f & Hin & Hf)].
  - left. split; [|done]. intros st Hst Hid.
    destruct (truthy (fileId st)) eqn:Ht; [|done].
    apply truthy_spec in Ht as (f & Hf & Hne). destruct Hnot.
    apply list_elem_of_fmap. exists (k, f). split; [done|].
    apply list_elem_of_omap. exists st. split; [done|].
    by apply queued_spec.
  - right. apply list_elem_of_omap in Hin as (st & Hst & Hq).
    apply queued_spec in Hq as (? & ? & ?). by exists st, f.
Qed.

(** [addImageIds] changes a document of the collection only to a non-empty
    file id that one of the stickers carries under that id; a sticker
    without a file id, or with an empty one, queues no write, and a list of
    such stickers leaves the collection as it was. *)
Theorem addImageIds_writes_only_file_ids stickers images :
  (∀ k f, addImageIds stickers images !! k = Some f →
     images !! k = Some f ∨
     f ≠ "" ∧ ∃ st, st ∈ stickers ∧ id st = k ∧ fileId st = Some f) ∧
  (∀ k, addImageIds stickers images !! k = None → images !! k = None) ∧
  (Forall (λ st, truthy (fileId st) = false) stickers →
     addImageIds stickers images = images).
Proof.
  split_and!.
  - intros k f Hk.
    destruct (addImageIds_lookup stickers images k)
      as [[_ Hsame]|(st & f' & Hst & Hid & Hf & Hne & Hnew)].
    + left. by rewrite <- Hsame.
    + right. rewrite Hnew in Hk. simplify_eq. eauto.
  - intros k Hk.
    destruct (addImageIds_lookup stickers images k)
      as [[_ Hsame]|(st & f' & Hst & Hid & Hf & Hne & Hnew)].
    + by rewrite <- Hsame.
    + by rewrite Hnew in Hk.
  - intros Hall. apply map_eq. intros k.
    destruct (addImageIds_lookup stickers images k)
      as [[_ Hsame]|(st & f' & Hst & Hid & Hf & Hne & Hnew)]; [done|].
    rewrite Forall_forall in Hall. specialize (Hall st Hst).
    rewrite Hf in Hall. apply not_true_iff_false in Hall. destruct Hall.
    apply truthy_spec. by exists f'.
Qed.





End CacheFacts.

Section CacheRuns.
Import Typings Partition Cache.



End CacheRuns.

(** ** The name of the sticker set *)

Section NamesFacts.
Import Names.
Implicit Types (s str : JsString) (c : N) (random : nat → nat).

Lemma is_alnum_word c : is_alnum c = true → is_word c = true.
Proof. unfold is_word. by intros ->. Qed.

Lemma is_alnum_not_underscore c : is_alnum c = true → c ≠ underscore.
Proof. intros Hc ->. by vm_compute in Hc. Qed.

Lemma underscore_eqb c : (c =? underscore)%N = false ↔ c ≠ underscore.
Proof. by rewrite N.eqb_neq. Qed.

Lemma replace_non_word_word str :
  Forall (λ c, is_word c = true) (replace_non_word str).
Proof.
  unfold replace_non_word. apply Forall_fmap, Forall_forall. intros c _.
  simpl. by destruct (is_word c) eqn:Hc.
Qed.

Lemma replace_non_word_clean str :
  Forall (λ c, is_word c = true) str → replace_non_word str = str.
Proof.
  unfold replace_non_word. induction 1 as [|c str Hc _ IH]; csimpl; [done|].
  by rewrite Hc, IH.
Qed.

Lemma replace_non_word_blank str :
  Forall (λ c, is_alnum c = false) str →
  replace_non_word str = replicate (length str) underscore.
Proof.
  unfold replace_non_word. induction 1 as [|c str Hc _ IH]; csimpl; [done|].
  rewrite IH. f_equal. unfold is_word. rewrite Hc. simpl.
  destruct (N.eqb_spec c underscore); by subst.
Qed.

Lemma charAt_alnum i : Forall (λ c, is_alnum c = true) (charAt characters i).
Proof.
  assert (Forall (λ c, is_alnum c = true) characters) as Hall.
  { unfold characters. by repeat constructor. }
  unfold charAt. destruct (characters !! i) as [c|] eqn:Hi; [|done].
  apply Forall_singleton. by eapply (Forall_lookup_1 _ _ _ _ Hall Hi).
Qed.

Lemma charAt_length i : i < 62 → length (charAt characters i) = 1.
Proof.
  intros Hi. unfold charAt.
  destruct (characters !! i) as [c|] eqn:Hc; [done|].
  apply lookup_ge_None in Hc. change (length characters) with 62 in Hc. lia.
Qed.

Lemma uniqueId_fold random l : ∀ resultStr,
  fold_left (λ resultStr i, resultStr ++ charAt characters (random i))
            l resultStr
  = resultStr ++ concat ((λ i, charAt characters (random i)) <$> l).
Proof.
  induction l as [|i l IH]; intros resultStr; csimpl.
  { by rewrite app_nil_r. }
  by rewrite IH, <- app_assoc.
Qed.

Lemma uniqueId_alnum random n :
  Forall (λ c, is_alnum c = true) (uniqueId random n).
Proof.
  unfold uniqueId. rewrite uniqueId_fold. simpl.
  apply Forall_concat, Forall_fmap, Forall_forall. intros i _.
  apply charAt_alnum.
Qed.

Lemma uniqueId_length random n :
  (∀ i, random i < 62) → length (uniqueId random n) = n.
Proof.
  intros Hr. unfold uniqueId. rewrite uniqueId_fold. simpl.
  generalize 0. induction n as [|n IH]; intros k; csimpl; [done|].
  by rewrite length_app, charAt_length, IH.
Qed.

Lemma drop_runs_split c : c ≠ underscore → ∀ x pending y,
  drop_runs pending (x ++ c :: y)
  = drop_runs pending x ++ c :: drop_runs 0 y.
Proof.
  intros Hc%underscore_eqb. induction x as [|a x IH]; intros pending y; simpl.
  { rewrite Hc. by destruct (pending =? 1). }
  destruct (a =? underscore)%N; [apply IH|].
  rewrite IH. by destruct (pending =? 1).
Qed.

Lemma drop_runs_word s : ∀ pending,
  Forall (λ c, is_word c = true) s →
  Forall (λ c, is_word c = true) (drop_runs pending s).
Proof.
  induction s as [|c s IH]; intros pending Hs; simpl.
  { destruct (pending =? 1); by repeat constructor. }
  apply Forall_cons in Hs as [Hc Hs].
  destruct (c =? underscore)%N; [by apply IH|].
  apply Forall_app. split; [destruct (pending =? 1); by repeat constructor|].
  apply Forall_cons. split; [done|by apply IH].
Qed.

Lemma no_double_cons c s :
  c ≠ underscore → no_double s = true → no_double (c :: s) = true.
Proof.
  intros Hc%underscore_eqb Hs. destruct s as [|c' s]; [done|].
  change (negb ((c =? underscore)%N && (c' =? underscore)%N)
          && no_double (c' :: s) = true).
  by rewrite Hc, Hs.
Qed.

Lemma no_double_underscore_cons c s :
  c ≠ underscore → no_double (c :: s) = true →
  no_double (underscore :: c :: s) = true.
Proof.
  intros Hc%underscore_eqb Hs.
  change (negb ((underscore =? underscore)%N && (c =? underscore)%N)
          && no_double (c :: s) = true).
  by rewrite Hc, Hs.
Qed.

Lemma drop_runs_no_double s : ∀ pending,
  no_double (drop_runs pending s) = true.
Proof.
  induction s as [|c s IH]; intros pending; simpl.
  { by destruct (pending =? 1). }
  destruct (N.eqb_spec c underscore) as [->|Hc]; [apply IH|].
  assert (no_double (c :: drop_runs 0 s) = true) as Hcs
    by by apply no_double_cons.
  destruct (pending =? 1); [|done]. by apply no_double_underscore_cons.
Qed.

Lemma no_double_tail c s : no_double (c :: s) = true → no_double s = true.
Proof.
  destruct s as [|c' s]; [done|].
  change (no_double (c :: c' :: s))
    with (negb ((c =? underscore)%N && (c' =? underscore)%N)
          && no_double (c' :: s)).
  by intros [_ ?]%andb_true_iff.
Qed.

Lemma no_double_head s :
  no_double (underscore :: s) = true → head s ≠ Some underscore.
Proof. destruct s as [|c' s]; [done|]. intros Hs [= ->]. done. Qed.

(** A string without a run of underscores is left as it is. *)
Lemma drop_runs_clean s :
  no_double s = true →
  drop_runs 0 s = s ∧
  (head s ≠ Some underscore → drop_runs 1 s = underscore :: s).
Proof.
  induction s as [|c s IH]; intros Hs; [done|].
  destruct (IH (no_double_tail _ _ Hs)) as [IH0 IH1]. simpl.
  destruct (N.eqb_spec c underscore) as [->|Hc].
  - split; [|done]. apply IH1. by apply no_double_head.
  - by rewrite IH0.
Qed.

Lemma no_double_alnum_app x y :
  Forall (λ c, is_alnum c = true) x → no_double y = true →
  no_double (x ++ y) = true.
Proof.
  induction 1 as [|c x Hc _ IH]; intros Hy; [done|]. simpl app.
  apply no_double_cons; [by apply is_alnum_not_underscore|by apply IH].
Qed.

Lemma no_double_snoc s :
  no_double s = true → last s ≠ Some underscore →
  no_double (s ++ [underscore]) = true.
Proof.
  induction s as [|c s IH]; intros Hs Hlast; [done|].
  destruct s as [|c' s].
  - simpl. destruct (N.eqb_spec c underscore) as [->|Hc]; done.
  - change (no_double (c :: c' :: s))
      with (negb ((c =? underscore)%N && (c' =? underscore)%N)
            && no_double (c' :: s)) in Hs.
    apply andb_true_iff in Hs as [Hcc Hs].
    change (negb ((c =? underscore)%N && (c' =? underscore)%N)
            && no_double ((c' :: s) ++ [underscore]) = true).
    rewrite Hcc. simpl. by apply IH.
Qed.

Lemma drop_runs_blank n : ∀ pending,
  drop_runs pending (replicate n underscore)
  = if pending + n =? 1 then [underscore] else [].
Proof.
  induction n as [|n IH]; intros pending; simpl.
  { by rewrite Nat.add_0_r. }
  rewrite IH. by replace (S pending + n) with (pending + S n) by lia.
Qed.

(** What [formattedName] returns once the six characters are drawn: the
    part made from the name, then the drawn characters and the fixed
    ending, which the removal of runs cannot touch. *)
Lemma formattedName_shape random str :
  (∀ i, random i < 62) →
  let result := replace_non_word str in
  let result := if negb (starts_with_word result)
                then units "L2T_" ++ result else result in
  formattedName random str
  = drop_runs 0 (result ++ [underscore]) ++
    uniqueId random 6 ++ units "_by_stickers_l2t2_bot".
Proof.
  intros Hr result result'. unfold formattedName. fold result. fold result'.
  pose proof (uniqueId_alnum random 6) as Halnum.
  pose proof (uniqueId_length random 6 Hr) as Hlen.
  destruct (uniqueId random 6) as [|c0 uid]; [done|].
  apply Forall_cons in Halnum as [Hc0 Huid].
  replace (result' ++ [underscore] ++ (c0 :: uid) ++
             units "_by_stickers_l2t2_bot")
    with ((result' ++ [underscore]) ++
            c0 :: uid ++ units "_by_stickers_l2t2_bot")
    by by rewrite <- app_assoc.
  rewrite drop_runs_split by by apply is_alnum_not_underscore.
  f_equal. simpl. f_equal.
  by apply drop_runs_clean, no_double_alnum_app.
Qed.

(** Whatever the name and whatever is drawn, the result consists of
    letters, digits and underscores only and has no two underscores in a
    row. *)
Theorem formattedName_is_word_only (random : nat → nat) (str : JsString) :
  Forall (λ c, is_word c = true) (formattedName random str) ∧
  no_double (formattedName random str) = true.
Proof.
  split; [|apply drop_runs_no_double].
  unfold formattedName. apply drop_runs_word.
  rewrite !Forall_app. split_and!.
  - destruct (negb _); [apply Forall_app; split|];
      try apply replace_non_word_word.
    unfold units. by repeat constructor.
  - by repeat constructor.
  - eapply Forall_impl; [apply uniqueId_alnum|]. apply is_alnum_word.
  - unfold units. by repeat constructor.
Qed.

(** The result ends with the six characters drawn, which are letters or
    digits, followed by [_by_stickers_l2t2_bot]; six characters are drawn
    from the alphabet whatever the name is. *)
Theorem formattedName_ends_with_unique_id (random : nat → nat)
    (str : JsString) :
  (∀ i, random i < 62) →
  ∃ body,
    formattedName random str
    = body ++ uniqueId random 6 ++ units "_by_stickers_l2t2_bot" ∧
    length (uniqueId random 6) = 6 ∧
    Forall (λ c, is_alnum c = true) (uniqueId random 6) ∧
    Forall (λ c, is_word c = true) body.
Proof.
  intros Hr. eexists. split; [by apply formattedName_shape|].
  split_and!; [by apply uniqueId_length|apply uniqueId_alnum|].
  apply drop_runs_word, Forall_app. split; [|by repeat constructor].
  destruct (negb _); [apply Forall_app; split|];
    try apply replace_non_word_word.
  unfold units. by repeat constructor.
Qed.

(** A name that is not empty, is made of letters, digits and single
    underscores and does not end with an underscore is kept as it is: the
    result is the name, an underscore, the drawn characters and the fixed
    ending. *)
Theorem formattedName_keeps_clean_names (random : nat → nat)
    (str : JsString) :
  (∀ i, random i < 62) →
  str ≠ [] →
  Forall (λ c, is_word c = true) str →
  no_double str = true →
  last str ≠ Some underscore →
  formattedName random str
  = str ++ [underscore] ++ uniqueId random 6 ++
    units "_by_stickers_l2t2_bot".
Proof.
  intros Hr Hne Hword Hclean Hlast.
  rewrite formattedName_shape by done.
  rewrite replace_non_word_clean by done.
  assert (starts_with_word str = true) as ->.
  { destruct str as [|c str]; [done|]. by apply Forall_cons in Hword as [? _]. }
  simpl negb. cbv iota.
  destruct (drop_runs_clean (str ++ [underscore])) as [-> _].
  - by apply no_double_snoc.
  - by rewrite <- app_assoc.
Qed.

(** The test [/^\w/] is applied after every other character has become an
    underscore, which [\w] matches: the prefix [L2T_] is added only to the
    empty name, and the underscore of the prefix then disappears in a
    run. *)
Theorem prefix_is_added_only_to_the_empty_name (random : nat → nat)
    (str : JsString) :
  (starts_with_word (replace_non_word str) = false ↔ str = []) ∧
  ((∀ i, random i < 62) →
   formattedName random []
   = units "L2T" ++ uniqueId random 6 ++ units "_by_stickers_l2t2_bot").
Proof.
  split.
  - destruct str as [|c str]; [done|]. split; [|done]. simpl.
    destruct (is_word c) eqn:Hc; [by rewrite Hc|done].
  - intros Hr. by rewrite formattedName_shape.
Qed.

(** A name without a single letter or digit leaves no trace: the result is
    the drawn characters and the fixed ending alone. *)
Theorem names_without_letters_or_digits_vanish (random : nat → nat)
    (str : JsString) :
  (∀ i, random i < 62) →
  str ≠ [] →
  Forall (λ c, is_alnum c = false) str →
  formattedName random str
  = uniqueId random 6 ++ units "_by_stickers_l2t2_bot".
Proof.
  intros Hr Hne Hblank.
  rewrite formattedName_shape by done.
  rewrite replace_non_word_blank by done.
  destruct str as [|c str]; [done|]. simpl length. simpl replicate.
  simpl starts_with_word. simpl negb. cbv iota.
  change ((underscore :: replicate (length str) underscore) ++ [underscore])
    with (underscore :: (replicate (length str) underscore ++ [underscore])).
  replace (replicate (length str) underscore ++ [underscore])
    with (replicate (S (length str)) underscore)
    by (by rewrite replicate_S_end).
  change (underscore :: replicate (S (length str)) underscore)
    with (replicate (S (S (length str))) underscore).
  by rewrite drop_runs_blank.
Qed.

End NamesFacts.

Section NamesRuns.
Import Names.

Lemma formattedName_ends_with_unique_id_witness :
  let random := λ i, Nat.min (7 * i) 61 in
  ∃ body,
    formattedName random (units "cat!")
    = body ++ uniqueId random 6 ++ units "_by_stickers_l2t2_bot" ∧
    length (uniqueId random 6) = 6 ∧
    Forall (λ c, is_alnum c = true) (uniqueId random 6) ∧
    Forall (λ c, is_word c = true) body.
Proof.
  intros random.
  apply (formattedName_ends_with_unique_id random (units "cat!")).
  intros i. unfold random. lia.
Defined.

Lemma formattedName_keeps_clean_names_witness :
  formattedName (λ i, Nat.min (7 * i) 61) (units "my_cat")
  = units "my_cat_AHOVcj_by_stickers_l2t2_bot".
Proof.
  apply (formattedName_keeps_clean_names
           (λ i, Nat.min (7 * i) 61) (units "my_cat"));
    [intros i; lia|done|by repeat constructor|done|done].
Defined.

Lemma names_without_letters_or_digits_vanish_witness :
  formattedName (λ i, Nat.min (7 * i) 61) [29483%N; 33%N]
  = units "AHOVcj_by_stickers_l2t2_bot".
Proof.
  apply (names_without_letters_or_digits_vanish
           (λ i, Nat.min (7 * i) 61) [29483%N; 33%N]);
    [intros i; lia|done|by repeat constructor].
Defined.

End NamesRuns.
